(** * Row search routing and queriable-field expansion (budibase)

    A shallow embedding of two modules of the repository:
    - the row search SDK ([search], [exportRows], [fetch], [fetchRaw],
      [fetchView], [getQueriableFields] and its inner closure
      [extractTableFields]);
    - the PouchDB handle factory of backend-core ([put], [getPouchDB]).

    Asynchronous functions are embedded as computations in a state and
    error monad: the state is what the JavaScript code mutates (the
    [handledTables] set, the module variables of the db module) together
    with a log of the calls made to collaborators; an exception is an
    [outcome] that is not [Done].  The recursion of [extractTableFields] is
    not structural, so it carries a fuel that bounds the nesting depth of
    the recursive calls. *)

From stdpp Require Import gmap strings list.
From Stdlib Require Import Ascii.

Local Open Scope string_scope.
Local Open Scope list_scope.

(** ** Outcomes and the state/error monad *)

Inductive error :=
| NotFound (tableId : string)
| TypeError
| NotInitialised
| BackendFailure (msg : string).

Inductive outcome (A : Type) :=
| Done (a : A)
| Throw (e : error)
| OutOfFuel.
Arguments Done {A} a.
Arguments Throw {A} e.
Arguments OutOfFuel {A}.

Definition M (S A : Type) : Type := S -> outcome A * S.

Definition ret {S A} (a : A) : M S A := fun s => (Done a, s).

Definition throw {S A} (e : error) : M S A := fun s => (Throw e, s).

Definition diverge {S A} : M S A := fun s => (OutOfFuel, s).

Definition bind {S A B} (c : M S A) (k : A -> M S B) : M S B :=
  fun s =>
    match c s with
    | (Done a, s') => k a s'
    | (Throw e, s') => (Throw e, s')
    | (OutOfFuel, s') => (OutOfFuel, s')
    end.

Notation "'do' x <- c ; k" := (bind c (fun x => k))
  (at level 10, x name, c at level 100, k at level 200).

(** [for (const x of xs) { acc = body acc x }] *)
Fixpoint for_of {S A B} (xs : list A) (body : B -> A -> M S B) (acc : B) : M S B :=
  match xs with
  | [] => ret acc
  | x :: xs' => do acc' <- body acc x ; for_of xs' body acc'
  end.

(** ** Data model (the parts of [@budibase/types] the code reads) *)

(** The [FieldType] enumeration; the code only tells [LINK] from the rest. *)
Inductive FieldType :=
| STRING | LONGFORM | OPTIONS | NUMBER | BOOLEAN | ARRAY | DATETIME
| ATTACHMENT | LINK | FORMULA | AUTO | JSON | INTERNAL | BARCODEQR | BIGINT
| BB_REFERENCE.

Definition FieldType_eqb (a b : FieldType) : bool :=
  match a, b with
  | STRING, STRING | LONGFORM, LONGFORM | OPTIONS, OPTIONS | NUMBER, NUMBER
  | BOOLEAN, BOOLEAN | ARRAY, ARRAY | DATETIME, DATETIME
  | ATTACHMENT, ATTACHMENT | LINK, LINK | FORMULA, FORMULA | AUTO, AUTO
  | JSON, JSON | INTERNAL, INTERNAL | BARCODEQR, BARCODEQR | BIGINT, BIGINT
  | BB_REFERENCE, BB_REFERENCE => true
  | _, _ => false
  end.

Module FieldSchema.
(** A column definition.  [tableId] is only meaningful on a [LINK]
    column; [visible] is the optional visibility flag. *)
Record t := mk {
  type : FieldType;
  name : string;
  tableId : string;
  visible : option bool;
}.
End FieldSchema.

Module Table.
(** [schema] is a JavaScript object used as a map from column name to
    column definition; the order of its keys is observable through
    [Object.keys], so it is kept as an association list. *)
Record t := mk {
  _id : string;
  name : string;
  schema : list (string * FieldSchema.t);
}.
End Table.

(** [Object.keys(schema)] *)
Definition Object_keys (schema : list (string * FieldSchema.t)) : list string :=
  map fst schema.

(** [schema[field]] *)
Fixpoint schema_get (schema : list (string * FieldSchema.t)) (field : string)
  : option FieldSchema.t :=
  match schema with
  | [] => None
  | (k, v) :: rest => if String.eqb k field then Some v else schema_get rest field
  end.

(** ** Relational field expansion *)

(** Calls to collaborators, and the two ways a link column is handled
    (ghost events that record the control flow of [extractTableFields]). *)
Inductive Backend := External | InternalSqs | InternalLucene.

Inductive event :=
| GetTable (tableId : string)
| ExecutorSearch (b : Backend)
| LinkSkipped (current related : string)
| LinkFollowed (current related : string).

Record ExpandState := mkExpand {
  handledTables : gset string;
  calls : list event;
}.

(** The template string [`${a}_${b}`]. *)
Definition edgeKey (a b : string) : string := a +:+ "_" +:+ b.

(** The template string [`${q}.${f}`]. *)
Definition qualify (q f : string) : string := q +:+ "." +:+ f.

Definition has (key : string) : M ExpandState bool :=
  fun st => (Done (bool_decide (key ∈ handledTables st)), st).

Definition add (key : string) : M ExpandState unit :=
  fun st => (Done tt, mkExpand ({[key]} ∪ handledTables st) (calls st)).

Definition emit (e : event) : M ExpandState unit :=
  fun st => (Done tt, mkExpand (handledTables st) (calls st ++ [e])).

Section Expander.
(** The table store behind [sdk.tables.getTable]: [None] is a table id
    that does not resolve. *)
Variable tables : string -> option Table.t.

Definition getTable (tableId : string) : M ExpandState Table.t :=
  do _ <- emit (GetTable tableId) ;
  match tables tableId with
  | Some t => ret t
  | None => throw (NotFound tableId)
  end.

(** The same call made from [search], outside the closure. *)
Definition getTable_top (tableId : string) : M (list event) Table.t :=
  fun log =>
    match tables tableId with
    | Some t => (Done t, log ++ [GetTable tableId])
    | None => (Throw (NotFound tableId), log ++ [GetTable tableId])
    end.

(** One iteration of the loop of [extractTableFields]; [recur] is the
    recursive call. *)
Definition extractField
    (recur : Table.t -> list string -> M ExpandState (list string))
    (table : Table.t) (result : list string) (field : string)
  : M ExpandState (list string) :=
  match schema_get (Table.schema table) field with
  | None => throw TypeError
  | Some subSchema =>
    if FieldType_eqb (FieldSchema.type subSchema) LINK then
      do seen <- has (edgeKey (Table._id table) (FieldSchema.tableId subSchema)) ;
      if seen then
        do _ <- emit (LinkSkipped (Table._id table) (FieldSchema.tableId subSchema)) ;
        ret result
      else
        do _ <- add (edgeKey (FieldSchema.tableId subSchema) (Table._id table)) ;
        do _ <- emit (LinkFollowed (Table._id table) (FieldSchema.tableId subSchema)) ;
        do relatedTable <- getTable (FieldSchema.tableId subSchema) ;
        do relatedFields <-
          recur relatedTable (Object_keys (Table.schema relatedTable)) ;
        ret (result
             ++ map (qualify (FieldSchema.name subSchema)) relatedFields
             ++ map (qualify (Table.name relatedTable)) relatedFields)
    else
      ret (result ++ [field])
  end.

Fixpoint extractTableFields (fuel : nat) (table : Table.t)
    (allowedFields : list string) : M ExpandState (list string) :=
  for_of
    (filter (fun f => f ∈ allowedFields) (Object_keys (Table.schema table)))
    (extractField
       (match fuel with
        | O => fun _ _ => diverge
        | S n => extractTableFields n
        end)
       table)
    [].

Definition getQueriableFields (fuel : nat) (fields : list string)
    (table : Table.t) : M (list event) (list string) :=
  fun log =>
    match extractTableFields fuel table fields
            (mkExpand {[Table._id table]} log) with
    | (Done r, st) => (Done ("_id" :: r), calls st)
    | (Throw e, st) => (Throw e, calls st)
    | (OutOfFuel, st) => (OutOfFuel, calls st)
    end.
End Expander.

(** ** The search entry point and the simple read paths *)

Inductive EmptyFilterOption := RETURN_ALL | RETURN_NONE.

Record ViewParams := mkViewParams {
  calculation : string;
  group : string;
  field : string;
}.

Module Params.
(** [RowSearchParams]; [Query] is the type of the values found in
    [options.query]. *)
Record t (Query : Type) := mk {
  tableId : string;
  query : Query;
  sort : option string;
  sortOrder : option string;
  sortType : option string;
  limit : option nat;
  bookmark : option string;
  paginate : option bool;
  fields : option (list string);
  countRows : option bool;
}.
Arguments mk {Query}.
Arguments tableId {Query}.
Arguments query {Query}.
Arguments sort {Query}.
Arguments sortOrder {Query}.
Arguments sortType {Query}.
Arguments limit {Query}.
Arguments bookmark {Query}.
Arguments paginate {Query}.
Arguments fields {Query}.
Arguments countRows {Query}.

Definition set_query {Query} (q : Query) (o : t Query) : t Query :=
  mk (tableId o) q (sort o) (sortOrder o) (sortType o) (limit o)
     (bookmark o) (paginate o) (fields o) (countRows o).
Definition set_sortOrder {Query} (so : option string) (o : t Query) : t Query :=
  mk (tableId o) (query o) (sort o) so (sortType o) (limit o)
     (bookmark o) (paginate o) (fields o) (countRows o).
Definition set_fields {Query} (fs : option (list string)) (o : t Query) : t Query :=
  mk (tableId o) (query o) (sort o) (sortOrder o) (sortType o) (limit o)
     (bookmark o) (paginate o) fs (countRows o).
End Params.

Module Response.
(** [SearchResponse<Row>] *)
Record t (Row : Type) := mk {
  rows : list Row;
  bookmark : option string;
  hasNextPage : option bool;
  totalRows : option nat;
}.
Arguments mk {Row}.
Arguments rows {Row}.
Arguments bookmark {Row}.
Arguments hasNextPage {Row}.
Arguments totalRows {Row}.
End Response.

(** The operations that [./search/external] and [./search/internal] both
    export and that [pickApi] selects between. *)
Record RowApi (Row ExportRowsParams ExportRowsResult : Type) := mkRowApi {
  api_exportRows : ExportRowsParams -> outcome ExportRowsResult;
  api_fetch : string -> outcome (list Row);
  api_fetchRaw : string -> outcome (list Row);
  api_fetchView : string -> ViewParams -> outcome (list Row);
}.
Arguments api_exportRows {Row ExportRowsParams ExportRowsResult}.
Arguments api_fetch {Row ExportRowsParams ExportRowsResult}.
Arguments api_fetchRaw {Row ExportRowsParams ExportRowsResult}.
Arguments api_fetchView {Row ExportRowsParams ExportRowsResult}.

(** The filter helpers of [@budibase/shared-core] and [./queryUtils], and
    what the code reads of a query value. *)
Record QueryOps (Query : Type) := mkQueryOps {
  emptyQuery : Query;                      (* the literal {} *)
  isTruthy : Query -> bool;                (* false on undefined and null *)
  onEmptyFilter : Query -> option EmptyFilterOption;
  cleanupQuery : Query -> Query;
  fixupFilterArrays : Query -> Query;
  hasFilters : Query -> bool;
  removeInvalidFilters : Query -> list string -> Query;
}.
Arguments emptyQuery {Query}.
Arguments isTruthy {Query}.
Arguments onEmptyFilter {Query}.
Arguments cleanupQuery {Query}.
Arguments fixupFilterArrays {Query}.
Arguments hasFilters {Query}.
Arguments removeInvalidFilters {Query}.

Definition is_RETURN_NONE (o : option EmptyFilterOption) : bool :=
  match o with
  | Some RETURN_NONE => true
  | _ => false
  end.

(** [v !== false] on an optional boolean. *)
Definition not_false (v : option bool) : bool :=
  match v with
  | Some false => false
  | _ => true
  end.

Definition lift_outcome {S A} (r : outcome A) : M S A := fun s => (r, s).

Definition log_call (e : event) : M (list event) unit :=
  fun log => (Done tt, log ++ [e]).

Section Search.
Context {Query Row ExportRowsParams ExportRowsResult : Type}.

Variable tables : string -> option Table.t.
Variable dataFilters : QueryOps Query.
Variable isExternalTableID : string -> bool.
(** [dbCore.isSqsEnabledForTenant()], the flag of the current tenant. *)
Variable isSqsEnabledForTenant : bool.
(** [String.prototype.toLowerCase], a builtin of the language: whatever
    function of strings it is. *)
Variable toLowerCase : string -> string.
Variable searchInputMapping : Table.t -> Params.t Query -> Params.t Query.
Variable external_search : Params.t Query -> Table.t -> outcome (Response.t Row).
Variable internal_sqs_search : Params.t Query -> Table.t -> outcome (Response.t Row).
Variable internal_lucene_search : Params.t Query -> Table.t -> outcome (Response.t Row).
Variable external internal : RowApi Row ExportRowsParams ExportRowsResult.
Variable export_tableId : ExportRowsParams -> string.

Definition pickApi (tableId : string) : RowApi Row ExportRowsParams ExportRowsResult :=
  if isExternalTableID tableId then external else internal.

(** [Object.keys(table.schema).filter(f => table.schema[f].visible !== false)];
    [schema[f]] is always defined on a key of the schema. *)
Definition visibleTableFields (table : Table.t) : list string :=
  List.filter
    (fun f =>
       match schema_get (Table.schema table) f with
       | Some sub => not_false (FieldSchema.visible sub)
       | None => false
       end)
    (Object_keys (Table.schema table)).

(** [options.query = fixupFilterArrays(cleanupQuery(options.query || {}))] *)
Definition cleanQuery (options : Params.t Query) : Params.t Query :=
  let options :=
    Params.set_query
      (cleanupQuery dataFilters
         (if isTruthy dataFilters (Params.query options)
          then Params.query options else emptyQuery dataFilters))
      options in
  Params.set_query (fixupFilterArrays dataFilters (Params.query options)) options.

(** The test of the early return: no filter left and the policy
    [RETURN_NONE]. *)
Definition isEmptyQuery (options : Params.t Query) : bool :=
  negb (hasFilters dataFilters (Params.query options))
  && is_RETURN_NONE (onEmptyFilter dataFilters (Params.query options)).

(** [if (options.sortOrder) options.sortOrder = options.sortOrder.toLowerCase()] *)
Definition lowerSortOrder (options : Params.t Query) : Params.t Query :=
  match Params.sortOrder options with
  | Some so =>
    if String.eqb so "" then options
    else Params.set_sortOrder (Some (toLowerCase so)) options
  | None => options
  end.

(** The input mapping and the restriction of [options.fields] to the
    visible columns. *)
Definition resolveFields (table : Table.t) (options : Params.t Query)
  : Params.t Query :=
  let options := searchInputMapping table options in
  let fields :=
    match Params.fields options with
    | Some fs =>
      let tableFields := map toLowerCase (visibleTableFields table) in
      filter (fun f => toLowerCase f ∈ tableFields) fs
    | None => visibleTableFields table
    end in
  Params.set_fields (Some fields) options.

(** The three-way choice of the executor. *)
Definition dispatch (isExternalTable : bool) (options : Params.t Query)
    (table : Table.t) : M (list event) (Response.t Row) :=
  if isExternalTable then
    do _ <- log_call (ExecutorSearch External) ;
    lift_outcome (external_search options table)
  else if isSqsEnabledForTenant then
    do _ <- log_call (ExecutorSearch InternalSqs) ;
    lift_outcome (internal_sqs_search options table)
  else
    do _ <- log_call (ExecutorSearch InternalLucene) ;
    lift_outcome (internal_lucene_search options table).

(** The calls to the tracer only attach tags to the span and are left
    out. *)
Definition search (fuel : nat) (options : Params.t Query)
  : M (list event) (Response.t Row) :=
  let isExternalTable := isExternalTableID (Params.tableId options) in
  let options := cleanQuery options in
  if isEmptyQuery options then ret (Response.mk [] None None None)
  else
    let options := lowerSortOrder options in
    do table <- getTable_top tables (Params.tableId options) ;
    let options := resolveFields table options in
    do queriable <-
      getQueriableFields tables fuel (default [] (Params.fields options)) table ;
    let options :=
      Params.set_query
        (removeInvalidFilters dataFilters (Params.query options) queriable)
        options in
    dispatch isExternalTable options table.

Definition exportRows (options : ExportRowsParams) : outcome ExportRowsResult :=
  api_exportRows (pickApi (export_tableId options)) options.

Definition fetch (tableId : string) : outcome (list Row) :=
  api_fetch (pickApi tableId) tableId.

Definition fetchRaw (tableId : string) : outcome (list Row) :=
  api_fetchRaw (pickApi tableId) tableId.

Definition fetchView (tableId viewName : string) (params : ViewParams)
  : outcome (list Row) :=
  api_fetchView (pickApi tableId) viewName params.
End Search.

(** ** The PouchDB handle factory *)

(** JavaScript values as far as a document needs them: a document is an
    object used as a map from property name to value.  Numbers are the
    integers; an object (arrays included) is a reference. *)
Inductive jsval :=
| JUndefined
| JNull
| JBool (b : bool)
| JNum (n : Z)
| JStr (s : string)
| JObject (ref : nat).

(** What [!v] negates. *)
Definition truthy (v : jsval) : bool :=
  match v with
  | JUndefined | JNull => false
  | JBool b => b
  | JNum n => negb (n =? 0)%Z
  | JStr s => negb (String.eqb s "")
  | JObject _ => true
  end.

(** [doc.key]: reading a property that is absent gives [undefined]. *)
Definition prop (doc : gmap string jsval) (key : string) : jsval :=
  default JUndefined (doc !! key).

Module Db.
(** What the underlying store's [put] runs in: the clock, counted in
    reads, and the store itself. *)
Record Env (Store : Type) := mkEnv {
  clockReads : nat;
  store : Store;
}.
Arguments mkEnv {Store}.
Arguments clockReads {Store}.
Arguments store {Store}.

Record Database (Store Options Response : Type) := mkDatabase {
  name : string;
  db_put : gmap string jsval -> Options -> M (Env Store) Response;
}.
Arguments mkDatabase {Store Options Response}.
Arguments name {Store Options Response}.
Arguments db_put {Store Options Response}.

(** The module variables [Pouch], [initialised], [openDbs], [dbList]. *)
Record Module_ (Store Options Response PouchOpts : Type) := mkModule {
  Pouch : option (string -> PouchOpts -> Database Store Options Response);
  initialised : bool;
  openDbs : list string;
  dbList : gset string;
}.
Arguments mkModule {Store Options Response PouchOpts}.
Arguments Pouch {Store Options Response PouchOpts}.
Arguments initialised {Store Options Response PouchOpts}.
Arguments openDbs {Store Options Response PouchOpts}.
Arguments dbList {Store Options Response PouchOpts}.
End Db.

Section DbModule.
Context {Store Options Response PouchOpts PouchOptions : Type}.

(** [new Date().toISOString()] at the n-th read of the clock. *)
Variable isoTimeAt : nat -> string.
(** [env.isTest()] and [env.MEMORY_LEAK_CHECK]. *)
Variable isTest : bool.
Variable MEMORY_LEAK_CHECK : bool.

Abbreviation Database := (Db.Database Store Options Response).
Abbreviation ModuleState := (Db.Module_ Store Options Response PouchOpts).

(** [pouch.getPouch(opts)]: the constructor of database handles. *)
Variable pouch_getPouch :
  option PouchOptions -> string -> PouchOpts -> Database.

Definition newDateISO : M (Db.Env Store) string :=
  fun e =>
    (Done (isoTimeAt (Db.clockReads e)),
     Db.mkEnv (S (Db.clockReads e)) (Db.store e)).

Definition put
    (dbPut : gmap string jsval -> Options -> M (Db.Env Store) Response)
    (doc : gmap string jsval) (options : Options)
  : M (Db.Env Store) Response :=
  do doc <-
    (if negb (truthy (prop doc "createdAt")) then
       do t <- newDateISO ;
       ret (<["createdAt" := JStr t]> doc)
     else ret doc) ;
  do t <- newDateISO ;
  dbPut (<["updatedAt" := JStr t]> doc) options.

Definition checkInitialised : M ModuleState unit :=
  fun st =>
    if Db.initialised st then (Done tt, st) else (Throw NotInitialised, st).

Definition init (opts : option PouchOptions) : M ModuleState unit :=
  fun st =>
    (Done tt,
     Db.mkModule (Some (pouch_getPouch opts)) true (Db.openDbs st) (Db.dbList st)).

Definition getPouchDB (dbName : string) (opts : PouchOpts)
  : M ModuleState Database :=
  do _ <- checkInitialised ;
  do _ <-
    (fun st =>
       if isTest then
         (Done tt,
          Db.mkModule (Db.Pouch st) (Db.initialised st) (Db.openDbs st)
            ({[dbName]} ∪ Db.dbList st))
       else (Done tt, st)) ;
  do db <-
    (fun st =>
       match Db.Pouch st with
       | Some ctor => (Done (ctor dbName opts), st)
       | None => (Throw TypeError, st)
       end) ;
  do _ <-
    (fun st =>
       if MEMORY_LEAK_CHECK then
         (Done tt,
          Db.mkModule (Db.Pouch st) (Db.initialised st)
            (Db.openDbs st ++ [Db.name db]) (Db.dbList st))
       else (Done tt, st)) ;
  let dbPut := Db.db_put db in
  ret (Db.mkDatabase (Db.name db) (put dbPut)).
End DbModule.

(** ** Example schemas *)

Definition ex_column (n : string) : string * FieldSchema.t :=
  (n, FieldSchema.mk STRING n "" None).

Definition ex_link (n target : string) : string * FieldSchema.t :=
  (n, FieldSchema.mk LINK n target None).

(** Two tables linked in both directions. *)
Definition ex_orders : Table.t :=
  Table.mk "ta_orders" "orders"
    [ex_column "status"; ex_link "customer" "ta_customers"].

Definition ex_customers : Table.t :=
  Table.mk "ta_customers" "customers"
    [ex_column "email"; ex_link "placed" "ta_orders"; ex_column "city"].

(** A table with two relationships to the same table. *)
Definition ex_invoices : Table.t :=
  Table.mk "ta_invoices" "invoices"
    [ex_link "billing" "ta_clients"; ex_link "shipping" "ta_clients"].

Definition ex_clients : Table.t :=
  Table.mk "ta_clients" "clients"
    [ex_column "email"; ex_link "billed" "ta_invoices";
     ex_link "shipped" "ta_invoices"].

(** Three tables, each linked to the two others. *)
Definition ex_users : Table.t :=
  Table.mk "ta_users" "users"
    [ex_link "teams" "ta_teams"; ex_link "projects" "ta_projects"].

Definition ex_teams : Table.t :=
  Table.mk "ta_teams" "teams"
    [ex_link "members" "ta_users"; ex_link "projects" "ta_projects"].

Definition ex_projects : Table.t :=
  Table.mk "ta_projects" "projects"
    [ex_link "owners" "ta_users"; ex_link "teams" "ta_teams"].

(** A table without relationships, and without an [_id] column. *)
Definition ex_notes : Table.t :=
  Table.mk "ta_notes" "notes"
    [ex_column "title"; ex_column "body"; ex_column "author"].

Definition ex_tables (tableId : string) : option Table.t :=
  List.find (fun t => String.eqb (Table._id t) tableId)
    [ex_orders; ex_customers; ex_invoices; ex_clients;
     ex_users; ex_teams; ex_projects; ex_notes].

(** Example collaborators: a query is [None] ([undefined]) or a list of
    conditions on fields with an empty-filter policy. *)
Record ex_filters := mk_ex_filters {
  ex_conditions : list (string * string);
  ex_onEmptyFilter : option EmptyFilterOption;
}.

Definition ex_dataFilters : QueryOps (option ex_filters) :=
  mkQueryOps (option ex_filters)
    (Some (mk_ex_filters [] None))
    (fun q => match q with Some _ => true | None => false end)
    (fun q => match q with Some f => ex_onEmptyFilter f | None => None end)
    (fun q => q)
    (fun q => q)
    (fun q =>
       match q with
       | Some f => negb (Nat.eqb (length (ex_conditions f)) 0)
       | None => false
       end)
    (fun q valid =>
       match q with
       | Some f =>
         Some (mk_ex_filters
                 (List.filter (fun c => bool_decide (fst c ∈ valid))
                    (ex_conditions f))
                 (ex_onEmptyFilter f))
       | None => None
       end).

(** An instance of the builtin [toLowerCase] for the examples, whose
    strings are all ASCII: on an ASCII string the builtin lowers the
    letters A to Z and leaves every other character. *)
Definition lower_ascii (c : ascii) : ascii :=
  let n := nat_of_ascii c in
  if (65 <=? n)%nat && (n <=? 90)%nat then ascii_of_nat (n + 32) else c.

Fixpoint ex_toLowerCase (s : string) : string :=
  match s with
  | EmptyString => EmptyString
  | String c rest => String (lower_ascii c) (ex_toLowerCase rest)
  end.

Definition ex_isExternalTableID (tableId : string) : bool :=
  String.prefix "datasource_plus" tableId.

(** An executor that answers with one row, its own number. *)
Definition ex_executor (n : nat) (options : Params.t (option ex_filters))
    (table : Table.t) : outcome (Response.t nat) :=
  Done (Response.mk [n] None None None).

Definition ex_request (q : option ex_filters) : Params.t (option ex_filters) :=
  Params.mk "ta_orders" q None (Some "ASCENDING") None None None None
    (Some ["status"; "customer"]) None.

Definition ex_search (sqs : bool) :=
  search ex_tables ex_dataFilters ex_isExternalTableID sqs ex_toLowerCase
    (fun _ o => o) (ex_executor 1) (ex_executor 2) (ex_executor 3).

(** The policy of the specification: external first, then the
    structured-query engine when the tenant has it, then the legacy
    index. *)
Definition spec_selectExecutor (externallyHosted structuredQueryEnabled : bool)
  : Backend :=
  if externallyHosted then External
  else if structuredQueryEnabled then InternalSqs
  else InternalLucene.

(** An example store whose [put] answers with the document it was given,
    and an example clock. *)
Definition ex_isoTimeAt (n : nat) : string :=
  match n with
  | O => "2024-05-01T10:00:00.000Z"
  | _ => "2024-05-01T10:00:00.001Z"
  end.

Definition ex_Pouch (dbName : string) (opts : unit)
  : Db.Database unit unit (gmap string jsval) :=
  Db.mkDatabase dbName (fun doc _ env => (Done doc, env)).

(** The module after [init()]. *)
Definition ex_module : Db.Module_ unit unit (gmap string jsval) unit :=
  snd (init (PouchOptions := unit) (fun _ => ex_Pouch) None
         (Db.mkModule None false [] ∅)).

(** ** Properties of a traversal, read off the events it logged *)

(** Once a link from [a] to [b] has been followed, no link from [b] back
    to [a] is followed later. *)
Definition no_back_edge (tr : list event) : Prop :=
  forall l1 l2 a b,
    tr = l1 ++ LinkFollowed a b :: l2 -> LinkFollowed b a ∉ l2.

(** Once a link from [a] to [b] has been followed, no link from [a] to
    [b] is followed later. *)
Definition no_repeated_edge (tr : list event) : Prop :=
  forall l1 l2 a b,
    tr = l1 ++ LinkFollowed a b :: l2 -> LinkFollowed a b ∉ l2.

(** Every followed link has left the key of its reverse pair in the set. *)
Definition marks (tr : list event) (handled : gset string) : Prop :=
  forall a b, LinkFollowed a b ∈ tr -> edgeKey b a ∈ handled.

(** The invariant of a traversal that started with the log [log0]. *)
Definition guard_inv (log0 : list event) (st : ExpandState) : Prop :=
  exists tr,
    calls st = log0 ++ tr /\ no_back_edge tr /\ marks tr (handledTables st).

Definition preserves {A} (log0 : list event) (c : M ExpandState A) : Prop :=
  forall st, guard_inv log0 st -> guard_inv log0 (snd (c st)).

(** The recursive call made by [extractTableFields] with the given fuel. *)
Definition recursor (tables : string -> option Table.t) (fuel : nat)
  : Table.t -> list string -> M ExpandState (list string) :=
  match fuel with
  | O => fun _ _ => diverge
  | S n => extractTableFields tables n
  end.

(** The keys that stay out of the set while the three example tables
    [ex_users], [ex_teams], [ex_projects] are traversed. *)
Definition triangle_open (handled : gset string) : Prop :=
  (edgeKey "ta_users" "ta_teams" ∉ handled)
  /\ (edgeKey "ta_teams" "ta_projects" ∉ handled)
  /\ (edgeKey "ta_projects" "ta_users" ∉ handled).

(** [expand] runs out of fuel on each of the three example tables. *)
Definition triangle_diverges
    (expand : Table.t -> list string -> M ExpandState (list string)) : Prop :=
  forall st,
    triangle_open (handledTables st) ->
    fst (expand ex_users ["teams"; "projects"] st) = OutOfFuel
    /\ ((edgeKey "ta_teams" "ta_users" ∈ handledTables st) ->
        fst (expand ex_teams ["members"; "projects"] st) = OutOfFuel)
    /\ fst (expand ex_projects ["owners"; "teams"] st) = OutOfFuel.

(** No column of the table is a relationship. *)
Definition no_links (table : Table.t) : bool :=
  forallb (fun kv => negb (FieldType_eqb (FieldSchema.type (snd kv)) LINK))
    (Table.schema table).

(** Every relationship column of [table] points to [target]. *)
Definition links_to (table : Table.t) (target : string) : bool :=
  forallb
    (fun kv =>
       implb (FieldType_eqb (FieldSchema.type (snd kv)) LINK)
         (String.eqb (FieldSchema.tableId (snd kv)) target))
    (Table.schema table).

Definition is_plain (table : Table.t) (f : string) : bool :=
  match schema_get (Table.schema table) f with
  | Some sub => negb (FieldType_eqb (FieldSchema.type sub) LINK)
  | None => false
  end.

(** The columns of [table] that are not relationships. *)
Definition plain_keys (table : Table.t) : list string :=
  List.filter (is_plain table) (Object_keys (Table.schema table)).

(** What a column [f] of [A] contributes when every relationship of [A]
    leads to [B] and nothing of [B] is expanded further. *)
Definition two_table_fields (A B : Table.t) (f : string) : list string :=
  match schema_get (Table.schema A) f with
  | Some sub =>
    if FieldType_eqb (FieldSchema.type sub) LINK then
      map (qualify (FieldSchema.name sub)) (plain_keys B)
      ++ map (qualify (Table.name B)) (plain_keys B)
    else [f]
  | None => []
  end.

(** No link leaving table [b] is followed in [tr]. *)
Definition quiet_from (b : string) (tr : list event) : Prop :=
  forall x, LinkFollowed b x ∉ tr.

(** ** Closing a database handle *)

(** [Array.prototype.indexOf]: the first index of [x], or -1. *)
Fixpoint indexOf_from (l : list string) (x : string) (i : Z) : Z :=
  match l with
  | [] => (-1)%Z
  | y :: rest => if String.eqb y x then i else indexOf_from rest x (i + 1)%Z
  end.

Definition indexOf (l : list string) (x : string) : Z := indexOf_from l x 0%Z.

(** [l.splice(start, 1)] as it leaves [l]: a negative [start] counts from
    the end, and a [start] beyond the end removes nothing. *)
Definition splice1 (l : list string) (start : Z) : list string :=
  let len := Z.of_nat (length l) in
  let actualStart :=
    if (start <? 0)%Z then Z.max (len + start) 0 else Z.min start len in
  take (Z.to_nat actualStart) l ++ drop (S (Z.to_nat actualStart)) l.

Section DbClose.
Context {Store Options Response PouchOpts : Type}.

Variable isTest : bool.
Variable MEMORY_LEAK_CHECK : bool.
(** [db.close()] of the handle; it may throw. *)
Variable db_close : Db.Database Store Options Response -> outcome unit.

(** [closeDB(db)]; [None] is a handle that is [null] or [undefined]. *)
Definition closeDB (db : option (Db.Database Store Options Response))
  : M (Db.Module_ Store Options Response PouchOpts) unit :=
  match db with
  | None => ret tt
  | Some d =>
    if isTest then ret tt
    else
      do _ <-
        (fun st =>
           if MEMORY_LEAK_CHECK then
             (Done tt,
              Db.mkModule (Db.Pouch st) (Db.initialised st)
                (splice1 (Db.openDbs st) (indexOf (Db.openDbs st) (Db.name d)))
                (Db.dbList st))
           else (Done tt, st)) ;
      (fun st =>
         match db_close d with
         | Done r => (Done r, st)
         | Throw _ => (Done tt, st)
         | OutOfFuel => (OutOfFuel, st)
         end)
  end.
End DbClose.

(** ** Vocabulary of the further properties *)

(** The events of an expansion: a skipped link, or a followed link with
    the fetch of the table it leads to. *)
Inductive expansion_trace : list event -> Prop :=
| expansion_nil : expansion_trace []
| expansion_skip a b tr :
    expansion_trace tr -> expansion_trace (LinkSkipped a b :: tr)
| expansion_follow a b tr :
    expansion_trace tr ->
    expansion_trace (LinkFollowed a b :: GetTable b :: tr).

(** [c] only appends an expansion trace to the log. *)
Definition appends_expansion {A} (c : M ExpandState A) : Prop :=
  forall st,
    exists tr, calls (snd (c st)) = calls st ++ tr /\ expansion_trace tr.

(** The only failure is a table that does not resolve, and its fetch is
    the last call made. *)
Definition fails_only_not_found (tables : string -> option Table.t)
    {A} (c : M ExpandState A) : Prop :=
  forall st e st',
    c st = (Throw e, st') ->
    exists tableId,
      e = NotFound tableId /\ tables tableId = None
      /\ last (calls st') = Some (GetTable tableId).

(** What the requested columns [l] of a table contribute when every
    relationship of the table leads to the table itself: only the first
    relationship is expanded. *)
Fixpoint self_fields (A : Table.t) (followed : bool) (l : list string)
  : list string :=
  match l with
  | [] => []
  | f :: rest =>
    match schema_get (Table.schema A) f with
    | Some sub =>
      if FieldType_eqb (FieldSchema.type sub) LINK then
        if followed then self_fields A true rest
        else
          map (qualify (FieldSchema.name sub)) (plain_keys A)
          ++ map (qualify (Table.name A)) (plain_keys A)
          ++ self_fields A true rest
      else f :: self_fields A followed rest
    | None => self_fields A followed rest
    end
  end.

(** A table with two relationships to itself. *)
Definition ex_employees : Table.t :=
  Table.mk "ta_employees" "employees"
    [ex_column "name"; ex_link "manager" "ta_employees";
     ex_link "mentor" "ta_employees"].

(** A table with a relationship to a table that does not exist. *)
Definition ex_tickets : Table.t :=
  Table.mk "ta_tickets" "tickets"
    [ex_column "subject"; ex_link "assignee" "ta_gone"].

Definition ex_tables2 (tableId : string) : option Table.t :=
  List.find (fun t => String.eqb (Table._id t) tableId)
    [ex_employees; ex_tickets].

(** ** Properties of the schema accessors *)

Lemma schema_get_elem schema field sub :
  schema_get schema field = Some sub -> (field, sub) ∈ schema.
Proof.
  induction schema as [|[k v] rest IH]; simpl; [discriminate|].
  destruct (String.eqb k field) eqn:E.
  - apply String.eqb_eq in E. intros [= ->]. subst. left.
  - intros H. right. auto.
Qed.

Lemma schema_get_keys schema field :
  field ∈ Object_keys schema -> exists sub, schema_get schema field = Some sub.
Proof.
  unfold Object_keys.
  induction schema as [|[k v] rest IH]; simpl.
  - intros H. inversion H.
  - intros H. destruct (String.eqb k field) eqn:E; [eauto|].
    apply IH. inversion H; subst; [|assumption].
    rewrite String.eqb_refl in E. discriminate.
Qed.

Lemma no_links_get table field sub :
  no_links table = true ->
  schema_get (Table.schema table) field = Some sub ->
  FieldType_eqb (FieldSchema.type sub) LINK = false.
Proof.
  unfold no_links. rewrite forallb_forall. intros Hall Hget.
  apply schema_get_elem, list_elem_of_In, Hall in Hget. simpl in Hget.
  now apply negb_true_iff.
Qed.

(** ** The loop on a table without relationships *)

Section PlainLoop.
Variable tables : string -> option Table.t.
Variable recur : Table.t -> list string -> M ExpandState (list string).
Variable table : Table.t.
Hypothesis Hplain : no_links table = true.

Lemma extractField_plain result field st :
  field ∈ Object_keys (Table.schema table) ->
  extractField tables recur table result field st = (Done (result ++ [field]), st).
Proof.
  intros Hin. apply schema_get_keys in Hin as [sub Hsub].
  unfold extractField. rewrite Hsub.
  rewrite (no_links_get _ _ _ Hplain Hsub). reflexivity.
Qed.

Lemma for_of_plain fields result st :
  (forall f, f ∈ fields -> f ∈ Object_keys (Table.schema table)) ->
  for_of fields (extractField tables recur table) result st
  = (Done (result ++ fields), st).
Proof.
  revert result st. induction fields as [|f rest IH]; intros result st Hsub; simpl.
  - unfold ret. now rewrite app_nil_r.
  - unfold bind. rewrite extractField_plain by (apply Hsub; left).
    rewrite IH by (intros g Hg; apply Hsub; now right).
    now rewrite <- app_assoc.
Qed.
End PlainLoop.

(** C7: on a table whose schema has no relationship column,
    [getQueriableFields] returns, for every requested field list and
    whatever the fuel, exactly ["_id"] followed by the schema keys that
    are members of the requested list, and calls no collaborator. *)
Theorem getQueriableFields_no_links tables fuel fields table log :
  no_links table = true ->
  getQueriableFields tables fuel fields table log
  = (Done ("_id" :: filter (fun f => f ∈ fields) (Object_keys (Table.schema table))),
     log).
Proof.
  intros Hplain. unfold getQueriableFields.
  destruct fuel; simpl; rewrite for_of_plain; trivial;
    intros f Hf; now apply list_elem_of_filter in Hf as [_ Hf].
Qed.

Lemma getQueriableFields_no_links_witness :
  getQueriableFields ex_tables 0 ["title"; "author"; "missing"] ex_notes []
  = (Done ["_id"; "title"; "author"], []).
Proof.
  apply (getQueriableFields_no_links ex_tables 0 ["title"; "author"; "missing"] ex_notes []).
  reflexivity.
Defined.

(** C8: whenever [getQueriableFields] returns, its result starts with the
    identifier field ["_id"], whatever the schema and the requested
    fields are. *)
Theorem getQueriableFields_has_id tables fuel fields table log result log' :
  getQueriableFields tables fuel fields table log = (Done result, log') ->
  "_id" ∈ result /\ exists rest, result = "_id" :: rest.
Proof.
  unfold getQueriableFields.
  destruct (extractTableFields tables fuel table fields _) as [[r| |] st];
    intros [= <- <-]. split; [left | eauto].
Qed.

Lemma getQueriableFields_has_id_witness :
  getQueriableFields ex_tables 1 ["status"; "customer"] ex_orders []
  = (Done ["_id"; "status"; "customer.email"; "customer.city";
           "customers.email"; "customers.city"],
     [LinkFollowed "ta_orders" "ta_customers"; GetTable "ta_customers";
      LinkSkipped "ta_customers" "ta_orders"])
  /\ "_id" ∈ ["_id"; "status"; "customer.email"; "customer.city";
              "customers.email"; "customers.city"].
Proof.
  assert (H : getQueriableFields ex_tables 1 ["status"; "customer"] ex_orders []
              = (Done ["_id"; "status"; "customer.email"; "customer.city";
                       "customers.email"; "customers.city"],
                 [LinkFollowed "ta_orders" "ta_customers"; GetTable "ta_customers";
                  LinkSkipped "ta_customers" "ta_orders"]))
    by (vm_compute; reflexivity).
  split; [exact H|].
  exact (proj1 (getQueriableFields_has_id ex_tables 1 ["status"; "customer"]
                  ex_orders [] _ _ H)).
Defined.

(** ** The read paths that bypass the search pipeline *)

(** C9: [exportRows], [fetch], [fetchRaw] and [fetchView] call the
    operation of the same name of the external backend when the table id
    is external and of the internal backend otherwise; neither the tenant
    flag nor the field expansion is among what they depend on. *)
Theorem read_paths_route_on_locality
    {Row ExportRowsParams ExportRowsResult : Type}
    (isExternalTableID : string -> bool)
    (external internal : RowApi Row ExportRowsParams ExportRowsResult)
    (export_tableId : ExportRowsParams -> string) :
  (forall options,
     exportRows isExternalTableID external internal export_tableId options
     = api_exportRows
         (if isExternalTableID (export_tableId options) then external else internal)
         options)
  /\ (forall tableId,
        fetch isExternalTableID external internal tableId
        = api_fetch (if isExternalTableID tableId then external else internal)
            tableId)
  /\ (forall tableId,
        fetchRaw isExternalTableID external internal tableId
        = api_fetchRaw (if isExternalTableID tableId then external else internal)
            tableId)
  /\ (forall tableId viewName params,
        fetchView isExternalTableID external internal tableId viewName params
        = api_fetchView (if isExternalTableID tableId then external else internal)
            viewName params).
Proof.
  repeat split; intros; reflexivity.
Qed.

(** ** The visited-pair guard *)

Lemma no_back_edge_nil : no_back_edge [].
Proof. intros [|? ?] l2 a b H; discriminate. Qed.

Lemma no_back_edge_snoc tr e :
  no_back_edge tr ->
  (forall a b, e = LinkFollowed a b -> LinkFollowed b a ∉ tr) ->
  no_back_edge (tr ++ [e]).
Proof.
  intros Hnb He l1 l2 a b Heq Hin.
  destruct l2 as [|x l2 _] using rev_ind; [inversion Hin|].
  change (l1 ++ LinkFollowed a b :: l2 ++ [x])
    with (l1 ++ (LinkFollowed a b :: l2) ++ [x]) in Heq.
  rewrite app_assoc in Heq. apply app_inj_tail in Heq as [-> <-].
  apply elem_of_app in Hin as [Hin|Hin].
  - exact (Hnb _ _ _ _ eq_refl Hin).
  - apply list_elem_of_singleton in Hin. symmetry in Hin.
    apply (He _ _ Hin). apply elem_of_app. right. left.
Qed.

Section Guard.
Variable tables : string -> option Table.t.
Variable log0 : list event.

Lemma guard_inv_log st e :
  (forall a b, e <> LinkFollowed a b) ->
  guard_inv log0 st ->
  guard_inv log0 (mkExpand (handledTables st) (calls st ++ [e])).
Proof.
  intros He (tr & Hc & Hnb & Hm). exists (tr ++ [e]). simpl. split; [|split].
  - now rewrite Hc, app_assoc.
  - apply no_back_edge_snoc; [assumption|]. intros a b ->. now destruct (He a b).
  - intros a b Hin. apply elem_of_app in Hin as [Hin|Hin]; [auto|].
    apply list_elem_of_singleton in Hin. now destruct (He a b).
Qed.

Lemma guard_inv_follow st a b :
  bool_decide (edgeKey a b ∈ handledTables st) = false ->
  guard_inv log0 st ->
  guard_inv log0
    (mkExpand ({[edgeKey b a]} ∪ handledTables st)
       (calls st ++ [LinkFollowed a b])).
Proof.
  intros Hfresh (tr & Hc & Hnb & Hm). apply bool_decide_eq_false in Hfresh.
  exists (tr ++ [LinkFollowed a b]). simpl. split; [|split].
  - now rewrite Hc, app_assoc.
  - apply no_back_edge_snoc; [assumption|].
    intros x y [= -> ->] Hin. apply Hfresh. now apply Hm.
  - intros x y Hin. apply elem_of_app in Hin as [Hin|Hin].
    + apply elem_of_union. right. now apply Hm.
    + apply list_elem_of_singleton in Hin. injection Hin as -> ->.
      apply elem_of_union. left. now apply elem_of_singleton.
Qed.

Lemma extractField_preserves recur table result field :
  (forall t fs, preserves log0 (recur t fs)) ->
  preserves log0 (extractField tables recur table result field).
Proof.
  intros Hrec st Hinv. unfold extractField.
  destruct (schema_get _ _) as [sub|]; [|exact Hinv].
  destruct (FieldType_eqb _ _); [|exact Hinv].
  unfold bind at 1. unfold has at 1.
  destruct (bool_decide _) eqn:Hseen.
  - apply guard_inv_log; [discriminate | assumption].
  - unfold bind, add, emit, getTable, ret, throw. simpl.
    pose proof (guard_inv_follow st _ _ Hseen Hinv) as H1.
    apply (guard_inv_log _ (GetTable (FieldSchema.tableId sub))) in H1;
      [|discriminate].
    simpl in H1. unfold bind, emit. simpl.
    destruct (tables _) as [related|]; [|exact H1].
    specialize (Hrec related (Object_keys (Table.schema related)) _ H1).
    destruct (recur related _ _) as [[rf| |] st']; exact Hrec.
Qed.

Lemma for_of_preserves recur table fields :
  (forall t fs, preserves log0 (recur t fs)) ->
  forall result,
    preserves log0 (for_of fields (extractField tables recur table) result).
Proof.
  intros Hrec. induction fields as [|f rest IH]; intros result st Hinv; simpl.
  - exact Hinv.
  - unfold bind.
    pose proof (extractField_preserves recur table result f Hrec st Hinv) as H1.
    destruct (extractField _ _ _ _ _ _) as [[r| |] st']; simpl in H1; auto.
    now apply IH.
Qed.

Lemma extractTableFields_preserves fuel :
  forall table allowedFields,
    preserves log0 (extractTableFields tables fuel table allowedFields).
Proof.
  induction fuel as [|n IH]; intros table allowedFields; simpl;
    apply for_of_preserves; [|assumption].
  intros t fs st Hinv. exact Hinv.
Qed.
End Guard.

(** C1 (as the code has it): in every traversal started by
    [getQueriableFields], whatever the schema graph, the fuel and the
    outcome, the events logged extend the initial log, and once a link
    from a table [a] to a table [b] has been followed, every later link
    from [b] back to [a] is skipped instead of followed. *)
Theorem reverse_edge_skipped tables fuel fields table log :
  exists tr,
    snd (getQueriableFields tables fuel fields table log) = log ++ tr
    /\ no_back_edge tr.
Proof.
  assert (Hinit : guard_inv log (mkExpand {[Table._id table]} log)).
  { exists []. simpl. split; [now rewrite app_nil_r|]. split.
    - apply no_back_edge_nil.
    - intros a b Hin. inversion Hin. }
  apply (extractTableFields_preserves tables log fuel table fields) in Hinit.
  unfold getQueriableFields.
  destruct (extractTableFields _ _ _ _ _) as [[r| |] st]; simpl in *;
    destruct Hinit as (tr & Hc & Hnb & _); eauto.
Qed.

(** C1 (as stated) fails: a table with two relationships to the same
    table follows the edge between the two tables twice in one
    traversal. *)
Lemma same_edge_followed_twice :
  ~ no_repeated_edge
      (snd (getQueriableFields ex_tables 1 ["billing"; "shipping"] ex_invoices [])).
Proof.
  intros H.
  apply (H [] [GetTable "ta_clients"; LinkSkipped "ta_clients" "ta_invoices";
               LinkSkipped "ta_clients" "ta_invoices";
               LinkFollowed "ta_invoices" "ta_clients"; GetTable "ta_clients";
               LinkSkipped "ta_clients" "ta_invoices";
               LinkSkipped "ta_clients" "ta_invoices"]
           "ta_invoices" "ta_clients").
  - vm_compute. reflexivity.
  - do 3 right. left.
Qed.

(** ** Unfolding the loop *)

Lemma extractTableFields_eq tables fuel table allowedFields :
  extractTableFields tables fuel table allowedFields
  = for_of
      (filter (fun f => f ∈ allowedFields) (Object_keys (Table.schema table)))
      (extractField tables (recursor tables fuel) table) [].
Proof. destruct fuel; reflexivity. Qed.

Lemma extractField_skip tables recur table result field sub st :
  schema_get (Table.schema table) field = Some sub ->
  FieldSchema.type sub = LINK ->
  bool_decide (edgeKey (Table._id table) (FieldSchema.tableId sub)
               ∈ handledTables st) = true ->
  extractField tables recur table result field st
  = (Done result,
     mkExpand (handledTables st)
       (calls st ++ [LinkSkipped (Table._id table) (FieldSchema.tableId sub)])).
Proof.
  intros Hget Hlink Hseen. unfold extractField. rewrite Hget, Hlink. simpl.
  unfold bind, has. rewrite Hseen. reflexivity.
Qed.

Lemma extractField_follow tables recur table result field sub related st :
  schema_get (Table.schema table) field = Some sub ->
  FieldSchema.type sub = LINK ->
  bool_decide (edgeKey (Table._id table) (FieldSchema.tableId sub)
               ∈ handledTables st) = false ->
  tables (FieldSchema.tableId sub) = Some related ->
  extractField tables recur table result field st
  = (do relatedFields <-
       recur related (Object_keys (Table.schema related)) ;
     ret (result
          ++ map (qualify (FieldSchema.name sub)) relatedFields
          ++ map (qualify (Table.name related)) relatedFields))
      (mkExpand
         ({[edgeKey (FieldSchema.tableId sub) (Table._id table)]}
          ∪ handledTables st)
         (calls st
          ++ [LinkFollowed (Table._id table) (FieldSchema.tableId sub)]
          ++ [GetTable (FieldSchema.tableId sub)])).
Proof.
  intros Hget Hlink Hfresh Hrel. unfold extractField. rewrite Hget, Hlink. simpl.
  unfold bind, has, add, emit, getTable. simpl. rewrite Hfresh. simpl.
  unfold bind, emit. simpl. rewrite Hrel, <- app_assoc. reflexivity.
Qed.

Lemma for_of_first_diverges {S A B} (body : B -> A -> M S B) x xs acc st :
  fst (body acc x st) = OutOfFuel ->
  fst (for_of (x :: xs) body acc st) = OutOfFuel.
Proof.
  simpl. unfold bind. destruct (body acc x st) as [[r| |] st']; simpl;
    congruence.
Qed.

Lemma for_of_first_done {S A B} (body : B -> A -> M S B) x xs acc st acc' st' :
  body acc x st = (Done acc', st') ->
  for_of (x :: xs) body acc st = for_of xs body acc' st'.
Proof. intros H. simpl. unfold bind. now rewrite H. Qed.

Lemma bind_diverges {S A B} (c : M S A) (k : A -> M S B) st :
  fst (c st) = OutOfFuel -> fst (bind c k st) = OutOfFuel.
Proof.
  unfold bind. destruct (c st) as [[r| |] st']; simpl; congruence.
Qed.

(** ** A schema on which the expansion does not return *)

Lemma triangle_open_mark handled key :
  triangle_open handled ->
  key <> edgeKey "ta_users" "ta_teams" ->
  key <> edgeKey "ta_teams" "ta_projects" ->
  key <> edgeKey "ta_projects" "ta_users" ->
  triangle_open ({[key]} ∪ handled).
Proof.
  intros (H1 & H2 & H3) N1 N2 N3.
  repeat split; intros H; apply elem_of_union in H as [H|H];
    try contradiction; apply elem_of_singleton in H; congruence.
Qed.

(** The first column of the loop is a link that is followed: the loop
    returns only if the recursive call does. *)
Ltac follow_first_link :=
  apply for_of_first_diverges;
  erewrite extractField_follow;
    [|reflexivity|reflexivity|now apply bool_decide_eq_false_2|reflexivity];
  apply bind_diverges.

Lemma triangle_step recur :
  triangle_diverges recur ->
  triangle_diverges
    (fun table allowedFields =>
       for_of
         (filter (fun f => f ∈ allowedFields) (Object_keys (Table.schema table)))
         (extractField ex_tables recur table) []).
Proof.
  intros Hrec st Hopen. pose proof Hopen as (H1 & H2 & H3).
  split; [|split].
  - follow_first_link. apply Hrec; simpl.
    + now apply triangle_open_mark.
    + apply elem_of_union. left. now apply elem_of_singleton.
  - intros Hmark.
    change (filter _ _) with ["members"; "projects"].
    erewrite for_of_first_done;
      [|apply extractField_skip with (sub := snd (ex_link "members" "ta_users"));
        [reflexivity|reflexivity|now apply bool_decide_eq_true_2]].
    follow_first_link. apply Hrec; simpl.
    now apply triangle_open_mark.
  - follow_first_link. apply Hrec; simpl.
    now apply triangle_open_mark.
Qed.

Lemma triangle_all_fuel fuel :
  triangle_diverges (extractTableFields ex_tables fuel).
Proof.
  induction fuel as [|n IH].
  - apply (triangle_step (fun _ _ => diverge)). intros st _. auto.
  - apply (triangle_step (extractTableFields ex_tables n)). exact IH.
Qed.

(** C2 fails on the code: on three tables linked pairwise, the expansion
    started from one of them runs out of any amount of fuel, that is, the
    recursion of [extractTableFields] never returns. *)
Theorem triangle_never_returns fuel log :
  fst (getQueriableFields ex_tables fuel ["teams"; "projects"] ex_users log)
  = OutOfFuel.
Proof.
  unfold getQueriableFields.
  destruct (triangle_all_fuel fuel (mkExpand {["ta_users"]} log)) as (H & _).
  - repeat split; simpl; intros H; apply elem_of_singleton in H; discriminate.
  - destruct (extractTableFields _ _ _ _ _) as [[r| |] st]; simpl in *;
      congruence.
Qed.

(** ** Two tables linked in both directions *)

Lemma append_same_prefix (a s : string) : a +:+ s = a -> s = "".
Proof.
  induction a as [|c a IH]; simpl; [auto|]. intros [= H]. auto.
Qed.

Lemma edgeKey_not_id a b : edgeKey a b <> a.
Proof. intros H. apply append_same_prefix in H. discriminate. Qed.

Lemma links_to_get table target field sub :
  links_to table target = true ->
  schema_get (Table.schema table) field = Some sub ->
  FieldSchema.type sub = LINK ->
  FieldSchema.tableId sub = target.
Proof.
  unfold links_to. rewrite forallb_forall. intros Hall Hget Hlink.
  apply schema_get_elem, list_elem_of_In, Hall in Hget. simpl in Hget.
  rewrite Hlink in Hget. simpl in Hget. now apply String.eqb_eq.
Qed.

Lemma FieldType_eqb_LINK ty : FieldType_eqb ty LINK = true -> ty = LINK.
Proof. destruct ty; simpl; congruence. Qed.

Lemma quiet_from_app b tr1 tr2 :
  quiet_from b tr1 -> quiet_from b tr2 -> quiet_from b (tr1 ++ tr2).
Proof.
  intros H1 H2 x Hin. apply elem_of_app in Hin as [Hin|Hin];
    [exact (H1 x Hin) | exact (H2 x Hin)].
Qed.

Lemma quiet_from_nil b : quiet_from b [].
Proof. intros x Hin. inversion Hin. Qed.

Lemma quiet_from_one b e :
  (forall x, e <> LinkFollowed b x) -> quiet_from b [e].
Proof.
  intros He x Hin. apply list_elem_of_singleton in Hin. symmetry in Hin.
  exact (He x Hin).
Qed.

Lemma filter_self (l : list string) : filter (fun g => g ∈ l) l = l.
Proof.
  assert (H : forall l' : list string,
             (forall x, x ∈ l' -> x ∈ l) -> filter (fun g => g ∈ l) l' = l').
  { induction l' as [|x l' IH]; intros Hsub; [reflexivity|].
    rewrite filter_cons_True by (apply Hsub; left).
    f_equal. apply IH. intros y Hy. apply Hsub. now right. }
  now apply H.
Qed.

Section TwoTables.
Variable tables : string -> option Table.t.
Variables A B : Table.t.
Hypothesis HB : tables (Table._id B) = Some B.
Hypothesis HAB : links_to A (Table._id B) = true.
Hypothesis HBA : links_to B (Table._id A) = true.
Hypothesis Hkeys :
  String.eqb (edgeKey (Table._id A) (Table._id B))
    (edgeKey (Table._id B) (Table._id A)) = false.

Lemma two_tables_distinct : Table._id A <> Table._id B.
Proof.
  intros E. rewrite E, String.eqb_refl in Hkeys. discriminate.
Qed.

(** In [B], with the key of the pair (B, A) in the set, every
    relationship column is skipped. *)
Lemma related_loop recur fields :
  (forall f, f ∈ fields -> f ∈ Object_keys (Table.schema B)) ->
  forall result st,
    edgeKey (Table._id B) (Table._id A) ∈ handledTables st ->
    exists tr,
      for_of fields (extractField tables recur B) result st
      = (Done (result ++ List.filter (is_plain B) fields),
         mkExpand (handledTables st) (calls st ++ tr))
      /\ quiet_from (Table._id B) tr.
Proof.
  induction fields as [|f rest IH]; intros Hsub result st Hmark.
  - exists []. simpl. unfold ret. rewrite !app_nil_r. destruct st.
    split; [reflexivity | apply quiet_from_nil].
  - destruct (schema_get_keys _ f (Hsub f ltac:(left))) as [sub Hsub'].
    assert (Hrest : forall g, g ∈ rest -> g ∈ Object_keys (Table.schema B))
      by (intros g Hg; apply Hsub; now right).
    simpl List.filter. unfold is_plain at 1. rewrite Hsub'.
    destruct (FieldType_eqb (FieldSchema.type sub) LINK) eqn:Hty.
    + apply FieldType_eqb_LINK in Hty.
      pose proof (links_to_get _ _ _ _ HBA Hsub' Hty) as Htarget.
      erewrite for_of_first_done;
        [|apply extractField_skip with (sub := sub); trivial;
          rewrite Htarget; now apply bool_decide_eq_true_2].
      destruct (IH Hrest result (mkExpand (handledTables st)
                  (calls st ++ [LinkSkipped (Table._id B) (FieldSchema.tableId sub)])))
        as (tr & Heq & Hq); [exact Hmark|].
      exists ([LinkSkipped (Table._id B) (FieldSchema.tableId sub)] ++ tr).
      simpl in Heq |- *. rewrite Heq, <- app_assoc. split; [reflexivity|].
      apply (quiet_from_app _ [_]); [|assumption].
      apply quiet_from_one. discriminate.
    + erewrite for_of_first_done;
        [|unfold extractField; rewrite Hsub', Hty; reflexivity].
      destruct (IH Hrest (result ++ [f]) st Hmark) as (tr & Heq & Hq).
      exists tr. rewrite Heq. simpl. rewrite <- app_assoc. now split.
Qed.

(** In [A], as long as the key of the pair (A, B) is not in the set,
    every relationship column is followed into [B]. *)
Lemma origin_loop fuel fields :
  (forall f, f ∈ fields -> f ∈ Object_keys (Table.schema A)) ->
  forall result st,
    edgeKey (Table._id A) (Table._id B) ∉ handledTables st ->
    exists tr handled,
      for_of fields (extractField tables (extractTableFields tables fuel) A)
        result st
      = (Done (result ++ flat_map (two_table_fields A B) fields),
         mkExpand handled (calls st ++ tr))
      /\ quiet_from (Table._id B) tr.
Proof.
  induction fields as [|f rest IH]; intros Hsub result st Hfresh.
  - exists [], (handledTables st). simpl. unfold ret. rewrite !app_nil_r.
    destruct st. split; [reflexivity | apply quiet_from_nil].
  - destruct (schema_get_keys _ f (Hsub f ltac:(left))) as [sub Hsub'].
    assert (Hrest : forall g, g ∈ rest -> g ∈ Object_keys (Table.schema A))
      by (intros g Hg; apply Hsub; now right).
    simpl flat_map. unfold two_table_fields at 1. rewrite Hsub'.
    destruct (FieldType_eqb (FieldSchema.type sub) LINK) eqn:Hty.
    + apply FieldType_eqb_LINK in Hty.
      pose proof (links_to_get _ _ _ _ HAB Hsub' Hty) as Htarget.
      set (st1 := mkExpand
                    ({[edgeKey (Table._id B) (Table._id A)]} ∪ handledTables st)
                    (calls st ++ [LinkFollowed (Table._id A) (Table._id B)]
                              ++ [GetTable (Table._id B)])).
      destruct (related_loop (recursor tables fuel)
                  (Object_keys (Table.schema B)) ltac:(auto) [] st1)
        as (trB & HeqB & HqB).
      { apply elem_of_union. left. now apply elem_of_singleton. }
      simpl in HeqB. fold (plain_keys B) in HeqB.
      erewrite for_of_first_done; cycle 1.
      { erewrite extractField_follow; eauto;
          [|rewrite Htarget; now apply bool_decide_eq_false_2
           |rewrite Htarget; exact HB].
        rewrite Htarget. fold st1. unfold bind.
        rewrite extractTableFields_eq, filter_self, HeqB. reflexivity. }
      destruct (IH Hrest
                  (result
                   ++ map (qualify (FieldSchema.name sub)) (plain_keys B)
                   ++ map (qualify (Table.name B)) (plain_keys B))
                  (mkExpand (handledTables st1) (calls st1 ++ trB)))
        as (tr & handled & Heq & Hq).
      { simpl. intros Hin. apply elem_of_union in Hin as [Hin|Hin];
          [|contradiction].
        apply elem_of_singleton in Hin. rewrite Hin, String.eqb_refl in Hkeys.
        discriminate. }
      exists ([LinkFollowed (Table._id A) (Table._id B)]
              ++ [GetTable (Table._id B)] ++ trB ++ tr), handled.
      subst st1. simpl in Heq. rewrite Heq. rewrite <- !app_assoc. simpl.
      split; [reflexivity|].
      apply (quiet_from_app _ [_]);
        [apply quiet_from_one; intros x [= E _]; now apply two_tables_distinct|].
      apply (quiet_from_app _ [_]); [apply quiet_from_one; discriminate|].
      now apply quiet_from_app.
    + erewrite for_of_first_done;
        [|unfold extractField; rewrite Hsub', Hty; reflexivity].
      destruct (IH Hrest (result ++ [f]) st Hfresh) as (tr & handled & Heq & Hq).
      exists tr, handled. rewrite Heq. simpl. rewrite <- app_assoc. now split.
Qed.
End TwoTables.

(** C3: let every relationship column of [A] lead to [B] and every
    relationship column of [B] lead back to [A].  With any fuel of at least
    one, [getQueriableFields] on [A] returns; its result is ["_id"]
    followed, for each requested column of [A] in schema order, by the
    column itself when it is plain and, when it is a relationship, by the
    plain columns of [B] prefixed by the relationship's name and then by
    the name of [B].  So for each requested relationship the plain columns
    of [B] are there under both prefixes, and no link leaving [B] is
    followed: nothing of [A] comes back through [B]. *)
Theorem two_table_cycle tables A B fuel fields log :
  tables (Table._id B) = Some B ->
  links_to A (Table._id B) = true ->
  links_to B (Table._id A) = true ->
  String.eqb (edgeKey (Table._id A) (Table._id B))
    (edgeKey (Table._id B) (Table._id A)) = false ->
  let result :=
    "_id" :: flat_map (two_table_fields A B)
               (filter (fun f => f ∈ fields) (Object_keys (Table.schema A))) in
  exists tr,
    getQueriableFields tables (S fuel) fields A log = (Done result, log ++ tr)
    /\ quiet_from (Table._id B) tr
    /\ (forall l sub f,
          l ∈ fields ->
          schema_get (Table.schema A) l = Some sub ->
          FieldSchema.type sub = LINK ->
          f ∈ plain_keys B ->
          qualify (FieldSchema.name sub) f ∈ result
          /\ qualify (Table.name B) f ∈ result).
Proof.
  intros HB HAB HBA Hkeys result.
  destruct (origin_loop tables A B HB HAB HBA Hkeys fuel
              (filter (fun f => f ∈ fields) (Object_keys (Table.schema A)))
              ltac:(intros f Hf; now apply list_elem_of_filter in Hf as [_ Hf])
              [] (mkExpand {[Table._id A]} log))
    as (tr & handled & Heq & Hq).
  { simpl. intros Hin. apply elem_of_singleton in Hin.
    exact (edgeKey_not_id _ _ Hin). }
  exists tr. split; [|split].
  - unfold getQueriableFields. simpl extractTableFields. simpl in Heq.
    rewrite Heq. reflexivity.
  - exact Hq.
  - intros l sub f Hl Hget Hlink Hf.
    assert (Hin : forall x,
               x ∈ two_table_fields A B l -> x ∈ result).
    { intros x Hx. right. apply list_elem_of_In, in_flat_map. exists l.
      split; [|now apply list_elem_of_In].
      apply list_elem_of_In, list_elem_of_filter. split; [assumption|].
      apply schema_get_elem in Hget. unfold Object_keys.
      apply list_elem_of_fmap. now exists (l, sub). }
    unfold two_table_fields in Hin. rewrite Hget, Hlink in Hin. simpl in Hin.
    split; apply Hin; apply elem_of_app; [left | right];
      apply list_elem_of_fmap; eauto.
Qed.

Lemma two_table_cycle_witness :
  exists tr,
    getQueriableFields ex_tables 1 ["status"; "customer"] ex_orders []
    = (Done ["_id"; "status"; "customer.email"; "customer.city";
             "customers.email"; "customers.city"], tr)
    /\ quiet_from "ta_customers" tr.
Proof.
  destruct (two_table_cycle ex_tables ex_orders ex_customers 0
              ["status"; "customer"] [] eq_refl eq_refl eq_refl eq_refl)
    as (tr & Heq & Hq & _).
  exists tr. split; [exact Heq | exact Hq].
Defined.

(** ** The search entry point *)

(** C4: when the cleaned query has no filter and its policy is
    [RETURN_NONE], [search] returns a response without rows and leaves the
    log of calls as it found it: no table is fetched and no executor is
    invoked. *)
Theorem search_return_none
    {Query Row : Type} tables (dataFilters : QueryOps Query) isExternalTableID
    isSqsEnabledForTenant toLowerCase searchInputMapping
    (external_search internal_sqs_search internal_lucene_search :
       Params.t Query -> Table.t -> outcome (Response.t Row))
    fuel options log :
  hasFilters dataFilters (Params.query (cleanQuery dataFilters options)) = false ->
  onEmptyFilter dataFilters (Params.query (cleanQuery dataFilters options))
  = Some RETURN_NONE ->
  search tables dataFilters isExternalTableID isSqsEnabledForTenant
    toLowerCase searchInputMapping external_search internal_sqs_search
    internal_lucene_search fuel options log
  = (Done (Response.mk [] None None None), log).
Proof.
  intros Hnone Hpolicy. unfold search, isEmptyQuery.
  rewrite Hnone, Hpolicy. reflexivity.
Qed.

Lemma search_return_none_witness :
  ex_search true 0 (ex_request (Some (mk_ex_filters [] (Some RETURN_NONE)))) []
  = (Done (Response.mk [] None None None), []).
Proof.
  apply (search_return_none ex_tables ex_dataFilters ex_isExternalTableID true
           ex_toLowerCase (fun _ o => o) (ex_executor 1) (ex_executor 2) (ex_executor 3) 0
           (ex_request (Some (mk_ex_filters [] (Some RETURN_NONE)))) []);
    reflexivity.
Defined.

(** C5: when the early return is not taken, the table resolves and the
    field expansion returns, [search] invokes exactly the executor that the
    policy of the specification selects from the locality of the request's
    table id and the tenant flag, and its outcome, a failure included, is
    the outcome of [search]: no other executor is tried. *)
Theorem search_dispatch
    {Query Row : Type} tables (dataFilters : QueryOps Query) isExternalTableID
    isSqsEnabledForTenant toLowerCase searchInputMapping
    (external_search internal_sqs_search internal_lucene_search :
       Params.t Query -> Table.t -> outcome (Response.t Row))
    fuel options log table queriable log' :
  let cleaned := lowerSortOrder toLowerCase (cleanQuery dataFilters options) in
  let resolved := resolveFields toLowerCase searchInputMapping table cleaned in
  let selected :=
    spec_selectExecutor (isExternalTableID (Params.tableId options))
      isSqsEnabledForTenant in
  isEmptyQuery dataFilters (cleanQuery dataFilters options) = false ->
  tables (Params.tableId options) = Some table ->
  getQueriableFields tables fuel (default [] (Params.fields resolved)) table
    (log ++ [GetTable (Params.tableId options)])
  = (Done queriable, log') ->
  search tables dataFilters isExternalTableID isSqsEnabledForTenant
    toLowerCase searchInputMapping external_search internal_sqs_search
    internal_lucene_search fuel options log
  = (match selected with
     | External => external_search
     | InternalSqs => internal_sqs_search
     | InternalLucene => internal_lucene_search
     end
       (Params.set_query
          (removeInvalidFilters dataFilters (Params.query resolved) queriable)
          resolved)
       table,
     log' ++ [ExecutorSearch selected]).
Proof.
  intros cleaned resolved selected Hfilters Htable Hfields.
  assert (Hid : Params.tableId cleaned = Params.tableId options).
  { unfold cleaned, lowerSortOrder.
    destruct (Params.sortOrder _) as [so|]; [destruct (String.eqb so "")|];
      reflexivity. }
  unfold search. rewrite Hfilters. fold cleaned. unfold bind at 1.
  unfold getTable_top. rewrite Hid, Htable. fold resolved.
  unfold bind at 1. rewrite Hfields.
  unfold selected, spec_selectExecutor, dispatch.
  destruct (isExternalTableID _); [reflexivity|].
  destruct isSqsEnabledForTenant; reflexivity.
Qed.

Lemma search_dispatch_witness :
  ex_search true 1
    (ex_request (Some (mk_ex_filters [("status", "open"); ("secret", "x")] None)))
    []
  = (Done (Response.mk [2] None None None),
     [GetTable "ta_orders"; LinkFollowed "ta_orders" "ta_customers";
      GetTable "ta_customers"; LinkSkipped "ta_customers" "ta_orders";
      ExecutorSearch InternalSqs]).
Proof.
  apply (search_dispatch ex_tables ex_dataFilters ex_isExternalTableID true
           ex_toLowerCase (fun _ o => o) (ex_executor 1) (ex_executor 2) (ex_executor 3) 1
           (ex_request
              (Some (mk_ex_filters [("status", "open"); ("secret", "x")] None)))
           [] ex_orders
           ["_id"; "status"; "customer.email"; "customer.city";
            "customers.email"; "customers.city"]
           [GetTable "ta_orders"; LinkFollowed "ta_orders" "ta_customers";
            GetTable "ta_customers"; LinkSkipped "ta_customers" "ta_orders"]).
  - reflexivity.
  - reflexivity.
  - vm_compute. reflexivity.
Defined.

(** ** Documents written through a handle of [getPouchDB] *)

Lemma put_stamps {Store Options Response : Type} isoTimeAt
    (doc : gmap string jsval) (options : Options) (env : Db.Env Store) :
  let created := truthy (prop doc "createdAt") in
  let t_created := isoTimeAt (Db.clockReads env) in
  let t_updated :=
    isoTimeAt (if created then Db.clockReads env else S (Db.clockReads env)) in
  exists doc' env',
    (forall dbPut : gmap string jsval -> Options -> M (Db.Env Store) Response,
        put isoTimeAt dbPut doc options env = dbPut doc' options env')
    /\ doc' !! "updatedAt" = Some (JStr t_updated)
    /\ (created = false -> doc' !! "createdAt" = Some (JStr t_created))
    /\ (created = true -> doc' !! "createdAt" = doc !! "createdAt")
    /\ (forall key,
          key <> "createdAt" -> key <> "updatedAt" -> doc' !! key = doc !! key).
Proof.
  intros created t_created t_updated. subst created t_created t_updated.
  destruct (truthy (prop doc "createdAt")) eqn:Hc.
  - exists (<["updatedAt" := JStr (isoTimeAt (Db.clockReads env))]> doc),
           (Db.mkEnv (S (Db.clockReads env)) (Db.store env)).
    repeat split.
    + intros dbPut. unfold put, bind. rewrite Hc. reflexivity.
    + apply lookup_insert_eq.
    + discriminate.
    + intros _. now rewrite lookup_insert_ne.
    + intros key _ Hu. now rewrite lookup_insert_ne.
  - exists (<["updatedAt" := JStr (isoTimeAt (S (Db.clockReads env)))]>
              (<["createdAt" := JStr (isoTimeAt (Db.clockReads env))]> doc)),
           (Db.mkEnv (S (S (Db.clockReads env))) (Db.store env)).
    repeat split.
    + intros dbPut. unfold put, bind. rewrite Hc. reflexivity.
    + apply lookup_insert_eq.
    + intros _. rewrite lookup_insert_ne by discriminate. apply lookup_insert_eq.
    + discriminate.
    + intros key Hk Hu. now rewrite !lookup_insert_ne.
Qed.

(** C10 (as the code has it): a handle returned by [getPouchDB] hands
    every document to the [put] of the underlying database with
    [updatedAt] set to the current timestamp; [createdAt] is set to the
    current timestamp when it is absent or falsy (undefined, null, false,
    0, the empty string) and is left as it is when it is truthy; every
    other property is handed over unchanged. *)
Theorem getPouchDB_put_stamps
    {Store Options Response PouchOpts : Type} isoTimeAt isTest MEMORY_LEAK_CHECK
    dbName (opts : PouchOpts)
    (st st' : Db.Module_ Store Options Response PouchOpts)
    (db : Db.Database Store Options Response)
    (doc : gmap string jsval) (options : Options) (env : Db.Env Store) :
  getPouchDB isoTimeAt isTest MEMORY_LEAK_CHECK dbName opts st = (Done db, st') ->
  let created := truthy (prop doc "createdAt") in
  let t_created := isoTimeAt (Db.clockReads env) in
  let t_updated :=
    isoTimeAt (if created then Db.clockReads env else S (Db.clockReads env)) in
  exists ctor doc' env',
    Db.Pouch st = Some ctor
    /\ Db.db_put db doc options env
       = Db.db_put (ctor dbName opts) doc' options env'
    /\ doc' !! "updatedAt" = Some (JStr t_updated)
    /\ (created = false -> doc' !! "createdAt" = Some (JStr t_created))
    /\ (created = true -> doc' !! "createdAt" = doc !! "createdAt")
    /\ (forall key,
          key <> "createdAt" -> key <> "updatedAt" -> doc' !! key = doc !! key).
Proof.
  intros Hget created t_created t_updated.
  destruct (put_stamps (Response := Response) isoTimeAt doc options env)
    as (doc' & env' & Hput & Hrest).
  unfold getPouchDB, bind, checkInitialised, ret in Hget.
  destruct (Db.initialised st); [|discriminate].
  assert (Hctor : exists ctor,
             Db.Pouch st = Some ctor
             /\ db = Db.mkDatabase (Db.name (ctor dbName opts))
                     (put isoTimeAt (Db.db_put (ctor dbName opts)))).
  { destruct isTest; simpl in Hget;
      destruct (Db.Pouch st) as [ctor|]; try discriminate;
      destruct MEMORY_LEAK_CHECK; injection Hget as <- _; eauto. }
  destruct Hctor as (ctor & Hp & ->).
  exists ctor, doc', env'. split; [exact Hp|]. split; [apply Hput | exact Hrest].
Qed.

Lemma getPouchDB_put_stamps_witness :
  exists ctor doc' env',
    Db.Pouch ex_module = Some ctor
    /\ put ex_isoTimeAt (Db.db_put (ex_Pouch "app" tt))
         {["name" := JStr "n"; "createdAt" := JStr "2020-01-01T00:00:00.000Z"]}
         tt (Db.mkEnv 0 tt)
       = Db.db_put (ctor "app" tt) doc' tt env'
    /\ doc' !! "updatedAt" = Some (JStr "2024-05-01T10:00:00.000Z")
    /\ doc' !! "createdAt" = Some (JStr "2020-01-01T00:00:00.000Z")
    /\ doc' !! "name" = Some (JStr "n").
Proof.
  destruct (getPouchDB_put_stamps ex_isoTimeAt false false "app" tt
              ex_module ex_module
              (Db.mkDatabase "app" (put ex_isoTimeAt (Db.db_put (ex_Pouch "app" tt))))
              {["name" := JStr "n"; "createdAt" := JStr "2020-01-01T00:00:00.000Z"]}
              tt (Db.mkEnv 0 tt) eq_refl)
    as (ctor & doc' & env' & Hp & Hput & Hu & _ & Hc & Hother).
  exists ctor, doc', env'.
  split; [exact Hp|]. split; [exact Hput|]. split; [exact Hu|]. split.
  - rewrite (Hc eq_refl). reflexivity.
  - rewrite (Hother "name") by discriminate. reflexivity.
Defined.

(** C10 (as stated) fails: a document whose [createdAt] is present but
    falsy, here the empty string, has it overwritten. *)
Lemma createdAt_present_but_overwritten :
  ~ (forall doc : gmap string jsval,
       is_Some (doc !! "createdAt") ->
       forall doc',
         fst (Db.db_put
                (Db.mkDatabase "app"
                   (put ex_isoTimeAt (Db.db_put (ex_Pouch "app" tt))))
                doc tt (Db.mkEnv 0 tt))
         = Done doc' ->
         doc' !! "createdAt" = doc !! "createdAt").
Proof.
  intros H.
  specialize (H {["createdAt" := JStr ""]} ltac:(eexists; reflexivity) _ eq_refl).
  vm_compute in H. discriminate.
Qed.

(** ** What an expansion calls *)

Lemma expansion_trace_app t1 t2 :
  expansion_trace t1 -> expansion_trace t2 -> expansion_trace (t1 ++ t2).
Proof.
  induction 1; intros H2; simpl; [assumption | constructor | constructor]; auto.
Qed.

Lemma appends_expansion_ret {A} (a : A) : appends_expansion (ret a).
Proof. intros st. exists []. simpl. rewrite app_nil_r. split; constructor. Qed.

Section ExpansionCalls.
Variable tables : string -> option Table.t.

Lemma extractField_appends recur table result field :
  (forall t fs, appends_expansion (recur t fs)) ->
  appends_expansion (extractField tables recur table result field).
Proof.
  intros Hrec st. unfold extractField.
  destruct (schema_get _ _) as [sub|];
    [|exists []; simpl; rewrite app_nil_r; split; constructor].
  destruct (FieldType_eqb _ _);
    [|exists []; simpl; rewrite app_nil_r; split; constructor].
  unfold bind at 1. unfold has at 1.
  destruct (bool_decide _).
  - eexists [_]. simpl. split; [reflexivity|]. repeat constructor.
  - unfold bind, add, emit, getTable, ret, throw. simpl.
    unfold bind, emit. simpl.
    destruct (tables _) as [related|].
    + destruct (Hrec related (Object_keys (Table.schema related))
                  (mkExpand
                     ({[edgeKey (FieldSchema.tableId sub) (Table._id table)]}
                      ∪ handledTables st)
                     ((calls st
                       ++ [LinkFollowed (Table._id table) (FieldSchema.tableId sub)])
                      ++ [GetTable (FieldSchema.tableId sub)])))
        as (tr & Hc & Htr).
      exists ([LinkFollowed (Table._id table) (FieldSchema.tableId sub);
               GetTable (FieldSchema.tableId sub)] ++ tr).
      split; [|apply (expansion_trace_app [_; _]); repeat constructor; assumption].
      destruct (recur related _ _) as [[rf| |] st']; simpl in Hc |- *;
        rewrite Hc, <- !app_assoc; reflexivity.
    + eexists [_; _]. simpl. rewrite <- app_assoc. split; [reflexivity|].
      repeat constructor.
Qed.

Lemma for_of_appends recur table fields :
  (forall t fs, appends_expansion (recur t fs)) ->
  forall result,
    appends_expansion (for_of fields (extractField tables recur table) result).
Proof.
  intros Hrec. induction fields as [|f rest IH]; intros result st; simpl.
  - exact (appends_expansion_ret result st).
  - unfold bind.
    destruct (extractField_appends recur table result f Hrec st) as (tr & Hc & Htr).
    destruct (extractField _ _ _ _ _ _) as [[r| |] st']; simpl in Hc; eauto.
    destruct (IH r st') as (tr' & Hc' & Htr').
    exists (tr ++ tr'). rewrite Hc', Hc, app_assoc. split; [reflexivity|].
    now apply expansion_trace_app.
Qed.

Lemma extractTableFields_appends fuel :
  forall table allowedFields,
    appends_expansion (extractTableFields tables fuel table allowedFields).
Proof.
  induction fuel as [|n IH]; intros table allowedFields; simpl;
    apply for_of_appends; [|assumption].
  intros t fs st. exists []. simpl. rewrite app_nil_r. split; constructor.
Qed.

(** X1: whatever the schema, the fuel and the outcome, what
    [getQueriableFields] adds to the log of calls is a sequence of skipped
    links and of followed links, each followed link coming with the fetch
    of the table it leads to and nothing else being fetched. *)
Theorem getQueriableFields_calls fuel fields table log :
  exists tr,
    snd (getQueriableFields tables fuel fields table log) = log ++ tr
    /\ expansion_trace tr.
Proof.
  destruct (extractTableFields_appends fuel table fields
              (mkExpand {[Table._id table]} log)) as (tr & Hc & Htr).
  exists tr. split; [|assumption]. unfold getQueriableFields.
  destruct (extractTableFields _ _ _ _ _) as [[r| |] st]; exact Hc.
Qed.

(** *** Failures *)

Lemma extractField_fails_only recur table result field :
  field ∈ Object_keys (Table.schema table) ->
  (forall t fs, fails_only_not_found tables (recur t fs)) ->
  fails_only_not_found tables (extractField tables recur table result field).
Proof.
  intros Hin Hrec st e st' H. apply schema_get_keys in Hin as [sub Hsub].
  unfold extractField in H. rewrite Hsub in H.
  destruct (FieldType_eqb _ _); [|discriminate].
  unfold bind, has in H. simpl in H.
  destruct (bool_decide _); [discriminate|].
  unfold bind, add, emit, getTable, ret, throw in H. simpl in H.
  unfold bind, emit in H. simpl in H.
  destruct (tables (FieldSchema.tableId sub)) as [related|] eqn:Hrel.
  - destruct (recur related _ _) as [[rf| |] st1] eqn:Hr; try discriminate.
    injection H as -> ->. exact (Hrec _ _ _ _ _ Hr).
  - injection H as <- <-. exists (FieldSchema.tableId sub).
    split; [reflexivity|]. split; [assumption|]. apply last_snoc.
Qed.

Lemma for_of_fails_only recur table fields :
  (forall f, f ∈ fields -> f ∈ Object_keys (Table.schema table)) ->
  (forall t fs, fails_only_not_found tables (recur t fs)) ->
  forall result,
    fails_only_not_found tables
      (for_of fields (extractField tables recur table) result).
Proof.
  intros Hsub Hrec. induction fields as [|f rest IH]; intros result st e st' H;
    simpl in H.
  - discriminate.
  - unfold bind in H.
    destruct (extractField _ _ _ _ _ _) as [[r| |] st1] eqn:H1;
      try discriminate.
    + apply (IH ltac:(intros g Hg; apply Hsub; now right) _ _ _ _ H).
    + injection H as -> ->.
      exact (extractField_fails_only recur table result f
               (Hsub f ltac:(left)) Hrec _ _ _ H1).
Qed.

Lemma extractTableFields_fails_only fuel :
  forall table allowedFields,
    fails_only_not_found tables
      (extractTableFields tables fuel table allowedFields).
Proof.
  induction fuel as [|n IH]; intros table allowedFields; simpl;
    apply for_of_fails_only; try assumption;
    try (intros f Hf; now apply list_elem_of_filter in Hf as [_ Hf]).
  intros t fs st e st' H. discriminate.
Qed.

(** X2: the only exception [getQueriableFields] raises is the one of a
    related table that does not resolve; the fetch of that table is then
    the last call it made. *)
Theorem getQueriableFields_fails_only_not_found fuel fields table log e log' :
  getQueriableFields tables fuel fields table log = (Throw e, log') ->
  exists tableId,
    e = NotFound tableId /\ tables tableId = None
    /\ last log' = Some (GetTable tableId).
Proof.
  unfold getQueriableFields. intros H.
  destruct (extractTableFields _ _ _ _ _) as [[r| |] st] eqn:Hr;
    try discriminate.
  injection H as -> <-.
  exact (extractTableFields_fails_only fuel table fields _ _ _ Hr).
Qed.
End ExpansionCalls.

Lemma getQueriableFields_fails_only_not_found_witness :
  exists tableId,
    NotFound "ta_gone" = NotFound tableId /\ ex_tables2 tableId = None
    /\ last [LinkFollowed "ta_tickets" "ta_gone"; GetTable "ta_gone"]
       = Some (GetTable tableId).
Proof.
  apply (getQueriableFields_fails_only_not_found ex_tables2 1
           ["subject"; "assignee"] ex_tickets []).
  vm_compute. reflexivity.
Defined.

(** ** What an expansion returns *)

Section ExpansionResult.
Variable tables : string -> option Table.t.

Lemma extractField_done_shape recur table result field r st st' :
  extractField tables recur table result field st = (Done r, st') ->
  (is_plain table field = true /\ r = result ++ [field])
  \/ (is_plain table field = false
      /\ exists sub qs,
           schema_get (Table.schema table) field = Some sub
           /\ FieldSchema.type sub = LINK
           /\ r = result ++ qs
           /\ forall x, x ∈ qs ->
                exists related f,
                  tables (FieldSchema.tableId sub) = Some related
                  /\ (x = FieldSchema.name sub +:+ "." +:+ f
                      \/ x = Table.name related +:+ "." +:+ f)).
Proof.
  unfold extractField, is_plain.
  destruct (schema_get _ _) as [sub|]; [|discriminate].
  destruct (FieldType_eqb _ _) eqn:Hty; simpl.
  - intros H. right. split; [reflexivity|].
    apply FieldType_eqb_LINK in Hty. exists sub.
    unfold bind, has in H. simpl in H.
    destruct (bool_decide _).
    + injection H as <- _. exists []. rewrite app_nil_r.
      split; [reflexivity|]. split; [assumption|]. split; [reflexivity|].
      intros x Hx. inversion Hx.
    + unfold bind, add, emit, getTable, ret, throw in H. simpl in H.
      unfold bind, emit in H. simpl in H.
      destruct (tables _) as [related|]; [|discriminate].
      destruct (recur related _ _) as [[rf| |] st1]; try discriminate.
      injection H as <- _. eexists.
      split; [reflexivity|]. split; [assumption|]. split; [reflexivity|].
      intros x Hx. exists related.
      apply elem_of_app in Hx as [Hx|Hx];
        apply list_elem_of_fmap in Hx as (f & -> & _); exists f; auto.
  - intros [= <- _]. now left.
Qed.

Lemma for_of_done_shape recur table fields :
  forall result r st st',
    for_of fields (extractField tables recur table) result st = (Done r, st') ->
    exists extra,
      r = result ++ extra
      /\ (forall f, f ∈ fields -> is_plain table f = true -> f ∈ extra)
      /\ (forall x, x ∈ extra ->
            (x ∈ fields /\ is_plain table x = true)
            \/ exists l sub related f,
                 l ∈ fields
                 /\ schema_get (Table.schema table) l = Some sub
                 /\ FieldSchema.type sub = LINK
                 /\ tables (FieldSchema.tableId sub) = Some related
                 /\ (x = FieldSchema.name sub +:+ "." +:+ f
                     \/ x = Table.name related +:+ "." +:+ f)).
Proof.
  induction fields as [|g rest IH]; intros result r st st' H; simpl in H.
  - injection H as <- _. exists []. rewrite app_nil_r. split; [reflexivity|].
    split; intros x Hx; inversion Hx.
  - unfold bind in H.
    destruct (extractField _ _ _ _ _ _) as [[r1| |] st1] eqn:H1;
      try discriminate.
    destruct (IH _ _ _ _ H) as (extra & -> & Hin & Hout).
    assert (Hlater : forall x, x ∈ extra ->
              (x ∈ g :: rest /\ is_plain table x = true)
              \/ exists l sub related f,
                   l ∈ g :: rest
                   /\ schema_get (Table.schema table) l = Some sub
                   /\ FieldSchema.type sub = LINK
                   /\ tables (FieldSchema.tableId sub) = Some related
                   /\ (x = FieldSchema.name sub +:+ "." +:+ f
                       \/ x = Table.name related +:+ "." +:+ f)).
    { intros x Hx.
      destruct (Hout x Hx) as [[? ?]|(l & sub & related & f & Hl & Hrest)].
      - left. split; [now right | assumption].
      - right. exists l, sub, related, f. split; [now right | assumption]. }
    apply extractField_done_shape in H1
      as [[Hp ->]|[Hp (sub & qs & Hget & Hty & -> & Hqs)]].
    + exists (g :: extra). rewrite <- app_assoc. split; [reflexivity|]. split.
      * intros f Hf Hplain. inversion Hf; subst; [left | right; auto].
      * intros x Hx. inversion Hx; subst; [|auto].
        left. split; [left | assumption].
    + exists (qs ++ extra). rewrite <- app_assoc. split; [reflexivity|]. split.
      * intros f Hf Hplain. apply elem_of_app. right.
        inversion Hf; subst; [congruence | auto].
      * intros x Hx. apply elem_of_app in Hx as [Hx|Hx]; [|auto].
        right. destruct (Hqs x Hx) as (related & f & Hrel & Hform).
        exists g, sub, related, f. split; [left | auto].
Qed.

(** X3: when [getQueriableFields] returns, every requested column of the
    table that is not a relationship is in the result under its own
    name. *)
Theorem requested_plain_columns_queriable fuel fields table log r log' f :
  getQueriableFields tables fuel fields table log = (Done r, log') ->
  f ∈ fields ->
  is_plain table f = true ->
  f ∈ r.
Proof.
  unfold getQueriableFields. intros H Hf Hplain.
  destruct (extractTableFields _ _ _ _ _) as [[r1| |] st] eqn:Hr;
    try discriminate.
  injection H as <- _. rewrite extractTableFields_eq in Hr.
  apply for_of_done_shape in Hr as (extra & -> & Hin & _).
  right. apply Hin; [|assumption].
  apply list_elem_of_filter. split; [assumption|].
  unfold is_plain in Hplain.
  destruct (schema_get (Table.schema table) f) as [sub|] eqn:Hget;
    [|discriminate].
  apply schema_get_elem in Hget. apply list_elem_of_fmap. now exists (f, sub).
Qed.

(** X4: when [getQueriableFields] returns, every element of the result is
    ["_id"], or the name of a requested column of the table that is not a
    relationship, or a string made of a prefix, a dot and a further
    string, where the prefix is the declared name of a requested
    relationship column of the table or the name of the table that this
    column leads to. *)
Theorem result_elements_origin fuel fields table log r log' x :
  getQueriableFields tables fuel fields table log = (Done r, log') ->
  x ∈ r ->
  x = "_id"
  \/ (x ∈ fields /\ is_plain table x = true)
  \/ exists l sub related f,
       l ∈ fields
       /\ schema_get (Table.schema table) l = Some sub
       /\ FieldSchema.type sub = LINK
       /\ tables (FieldSchema.tableId sub) = Some related
       /\ (x = FieldSchema.name sub +:+ "." +:+ f
           \/ x = Table.name related +:+ "." +:+ f).
Proof.
  unfold getQueriableFields. intros H Hx.
  destruct (extractTableFields _ _ _ _ _) as [[r1| |] st] eqn:Hr;
    try discriminate.
  injection H as <- _. rewrite extractTableFields_eq in Hr.
  apply for_of_done_shape in Hr as (extra & -> & _ & Hout).
  inversion Hx; subst; [now left | right].
  destruct (Hout x) as [[Hin Hp]|(l & sub & related & f & Hl & Hrest)]; auto.
  - left. split; [|assumption]. now apply list_elem_of_filter in Hin as [? _].
  - right. exists l, sub, related, f. split; [|assumption].
    now apply list_elem_of_filter in Hl as [? _].
Qed.
End ExpansionResult.

Lemma requested_plain_columns_queriable_witness :
  "status" ∈ ["_id"; "status"; "customer.email"; "customer.city";
              "customers.email"; "customers.city"].
Proof.
  apply (requested_plain_columns_queriable ex_tables 1 ["status"; "customer"]
           ex_orders [] _
           [LinkFollowed "ta_orders" "ta_customers"; GetTable "ta_customers";
            LinkSkipped "ta_customers" "ta_orders"] "status").
  - vm_compute. reflexivity.
  - left.
  - reflexivity.
Defined.

Lemma result_elements_origin_witness :
  "customers.city" = "_id"
  \/ ("customers.city" ∈ ["status"; "customer"]
      /\ is_plain ex_orders "customers.city" = true)
  \/ exists l sub related f,
       l ∈ ["status"; "customer"]
       /\ schema_get (Table.schema ex_orders) l = Some sub
       /\ FieldSchema.type sub = LINK
       /\ ex_tables (FieldSchema.tableId sub) = Some related
       /\ ("customers.city" = FieldSchema.name sub +:+ "." +:+ f
           \/ "customers.city" = Table.name related +:+ "." +:+ f).
Proof.
  apply (result_elements_origin ex_tables 1 ["status"; "customer"]
           ex_orders []
           ["_id"; "status"; "customer.email"; "customer.city";
            "customers.email"; "customers.city"]
           [LinkFollowed "ta_orders" "ta_customers"; GetTable "ta_customers";
            LinkSkipped "ta_customers" "ta_orders"] "customers.city").
  - vm_compute. reflexivity.
  - compute_done.
Defined.

(** ** One relationship column *)

(** A loop that returns on [pre ++ rest] returned on [pre]. *)
Lemma for_of_app_done {S A B} (body : B -> A -> M S B) pre rest :
  forall acc st r st',
    for_of (pre ++ rest) body acc st = (Done r, st') ->
    exists acc0 st0,
      for_of pre body acc st = (Done acc0, st0)
      /\ for_of rest body acc0 st0 = (Done r, st').
Proof.
  induction pre as [|x pre IH]; intros acc st r st' H; simpl in *.
  - exists acc, st. split; [reflexivity | assumption].
  - unfold bind in *.
    destruct (body acc x st) as [[acc1| |] st1]; try discriminate.
    now apply IH.
Qed.

(** The step of the loop on a relationship column whose edge is not
    marked, in a loop that returns. *)
Lemma link_step_done
    tables fuel table field sub rest result st r st' :
  schema_get (Table.schema table) field = Some sub ->
  FieldSchema.type sub = LINK ->
  bool_decide (edgeKey (Table._id table) (FieldSchema.tableId sub)
               ∈ handledTables st) = false ->
  for_of (field :: rest)
    (extractField tables (extractTableFields tables fuel) table) result st
  = (Done r, st') ->
  exists related relatedFields st1,
    tables (FieldSchema.tableId sub) = Some related
    /\ extractTableFields tables fuel related
         (Object_keys (Table.schema related))
         (mkExpand
            ({[edgeKey (FieldSchema.tableId sub) (Table._id table)]}
             ∪ handledTables st)
            (calls st
             ++ [LinkFollowed (Table._id table) (FieldSchema.tableId sub)]
             ++ [GetTable (FieldSchema.tableId sub)]))
       = (Done relatedFields, st1)
    /\ for_of rest
         (extractField tables (extractTableFields tables fuel) table)
         (result
          ++ map (fun f => FieldSchema.name sub +:+ "." +:+ f) relatedFields
          ++ map (fun f => Table.name related +:+ "." +:+ f) relatedFields)
         st1
       = (Done r, st')
    /\ (forall f, is_plain related f = true -> f ∈ relatedFields)
    /\ (forall f, f ∈ relatedFields ->
          (FieldSchema.name sub +:+ "." +:+ f) ∈ r
          /\ (Table.name related +:+ "." +:+ f) ∈ r).
Proof.
  intros Hget Hlink Hfresh Hloop.
  destruct (tables (FieldSchema.tableId sub)) as [related|] eqn:Hrel.
  2:{ exfalso. simpl in Hloop. unfold bind at 1 in Hloop.
      unfold extractField in Hloop. rewrite Hget, Hlink in Hloop. simpl in Hloop.
      unfold bind, has, add, emit, getTable, throw in Hloop. simpl in Hloop.
      rewrite Hfresh in Hloop. simpl in Hloop. unfold bind, emit in Hloop.
      simpl in Hloop. rewrite Hrel in Hloop. discriminate. }
  simpl in Hloop. unfold bind at 1 in Hloop.
  rewrite (extractField_follow tables _ table result field sub related st
             Hget Hlink Hfresh Hrel) in Hloop.
  unfold bind at 1 in Hloop.
  destruct (extractTableFields tables fuel related _ _)
    as [[relatedFields| |] st1] eqn:Hrec; try discriminate.
  unfold ret in Hloop. unfold qualify in Hloop.
  exists related, relatedFields, st1.
  split; [reflexivity|]. split; [exact Hrec|]. split; [exact Hloop|]. split.
  - intros f Hplain. rewrite extractTableFields_eq, filter_self in Hrec.
    apply for_of_done_shape in Hrec as (extra & -> & Hin & _).
    apply Hin; [|assumption].
    unfold is_plain in Hplain.
    destruct (schema_get (Table.schema related) f) as [s|] eqn:Hs;
      [|discriminate].
    apply schema_get_elem in Hs. apply list_elem_of_fmap. now exists (f, s).
  - intros f Hf.
    apply for_of_done_shape in Hloop as (extra & -> & _).
    split; apply elem_of_app; left; apply elem_of_app; right;
      apply elem_of_app; [left | right];
      apply list_elem_of_fmap; exists f; auto.
Qed.

(** C6: take any call of [extractTableFields] that returns, on any table
    and in any state, and any relationship column among the columns it
    loops over.  When the loop reaches that column and its edge is not
    marked, the related table resolves and is expanded over all the keys
    of its own schema, whatever field list was requested: its result holds
    every plain column of the related table.  That result is added twice:
    each of its paths prefixed by the column's declared name and a dot,
    and each prefixed by the related table's name and a dot, and both
    spellings of every related path are in what the call returns. *)
Theorem link_adds_related_schema_twice
    tables fuel table allowedFields st r st' pre field rest sub :
  extractTableFields tables (S fuel) table allowedFields st = (Done r, st') ->
  filter (fun f => f ∈ allowedFields) (Object_keys (Table.schema table))
  = pre ++ field :: rest ->
  schema_get (Table.schema table) field = Some sub ->
  FieldSchema.type sub = LINK ->
  exists result0 st0,
    for_of pre (extractField tables (extractTableFields tables fuel) table)
      [] st
    = (Done result0, st0)
    /\ (bool_decide (edgeKey (Table._id table) (FieldSchema.tableId sub)
                     ∈ handledTables st0) = false ->
        exists related relatedFields st1,
          tables (FieldSchema.tableId sub) = Some related
          /\ extractTableFields tables fuel related
               (Object_keys (Table.schema related))
               (mkExpand
                  ({[edgeKey (FieldSchema.tableId sub) (Table._id table)]}
                   ∪ handledTables st0)
                  (calls st0
                   ++ [LinkFollowed (Table._id table) (FieldSchema.tableId sub)]
                   ++ [GetTable (FieldSchema.tableId sub)]))
             = (Done relatedFields, st1)
          /\ for_of rest
               (extractField tables (extractTableFields tables fuel) table)
               (result0
                ++ map (fun f => FieldSchema.name sub +:+ "." +:+ f)
                     relatedFields
                ++ map (fun f => Table.name related +:+ "." +:+ f)
                     relatedFields)
               st1
             = (Done r, st')
          /\ (forall f, is_plain related f = true -> f ∈ relatedFields)
          /\ (forall f, f ∈ relatedFields ->
                (FieldSchema.name sub +:+ "." +:+ f) ∈ r
                /\ (Table.name related +:+ "." +:+ f) ∈ r)).
Proof.
  intros Hcall Hfields Hget Hlink.
  change (for_of
            (filter (fun f => f ∈ allowedFields)
               (Object_keys (Table.schema table)))
            (extractField tables (extractTableFields tables fuel) table) [] st
          = (Done r, st')) in Hcall.
  rewrite Hfields in Hcall.
  apply for_of_app_done in Hcall as (result0 & st0 & Hpre & Hloop).
  exists result0, st0. split; [exact Hpre|]. intros Hfresh.
  exact (link_step_done tables fuel table field sub rest result0 st0 r st'
           Hget Hlink Hfresh Hloop).
Qed.

Lemma link_adds_related_schema_twice_witness :
  let r : list string :=
    ["status"; "customer.email"; "customer.city";
     "customers.email"; "customers.city"] in
  exists (related : Table.t) (relatedFields : list string),
    ex_tables "ta_customers" = Some related
    /\ (forall f, is_plain related f = true -> f ∈ relatedFields)
    /\ (forall f, f ∈ relatedFields ->
          ("customer" +:+ "." +:+ f) ∈ r
          /\ (Table.name related +:+ "." +:+ f) ∈ r).
Proof.
  intros r.
  destruct (link_adds_related_schema_twice ex_tables 0 ex_orders
              ["status"; "customer"] (mkExpand {["ta_orders"]} []) r
              (mkExpand ({["ta_customers_ta_orders"]} ∪ {["ta_orders"]})
                 [LinkFollowed "ta_orders" "ta_customers";
                  GetTable "ta_customers";
                  LinkSkipped "ta_customers" "ta_orders"])
              ["status"] "customer" []
              (FieldSchema.mk LINK "customer" "ta_customers" None))
    as (result0 & st0 & Hpre & Hfollow).
  - vm_compute. reflexivity.
  - vm_compute. reflexivity.
  - reflexivity.
  - reflexivity.
  - injection Hpre as <- <-.
    destruct (Hfollow ltac:(vm_compute; reflexivity))
      as (related & relatedFields & st1 & Hrel & _ & _ & Hall & Hin).
    exists related, relatedFields. auto.
Defined.

(** ** A table linked to itself *)

Section SelfReference.
Variable tables : string -> option Table.t.
Variable A : Table.t.
Hypothesis HA : tables (Table._id A) = Some A.
Hypothesis Hself : links_to A (Table._id A) = true.

Lemma self_loop fuel fields :
  (forall f, f ∈ fields -> f ∈ Object_keys (Table.schema A)) ->
  forall result st followed,
    bool_decide (edgeKey (Table._id A) (Table._id A) ∈ handledTables st)
    = followed ->
    exists tr handled,
      for_of fields (extractField tables (extractTableFields tables fuel) A)
        result st
      = (Done (result ++ self_fields A followed fields),
         mkExpand handled (calls st ++ tr)).
Proof.
  induction fields as [|f rest IH]; intros Hsub result st followed Hmark.
  - exists [], (handledTables st). simpl. unfold ret. rewrite !app_nil_r.
    now destruct st.
  - destruct (schema_get_keys _ f (Hsub f ltac:(left))) as [sub Hsub'].
    assert (Hrest : forall g, g ∈ rest -> g ∈ Object_keys (Table.schema A))
      by (intros g Hg; apply Hsub; now right).
    simpl self_fields. rewrite Hsub'.
    destruct (FieldType_eqb (FieldSchema.type sub) LINK) eqn:Hty.
    + apply FieldType_eqb_LINK in Hty.
      pose proof (links_to_get _ _ _ _ Hself Hsub' Hty) as Htarget.
      destruct followed.
      * erewrite for_of_first_done;
          [|apply extractField_skip with (sub := sub); trivial;
            now rewrite Htarget].
        destruct (IH Hrest result
                    (mkExpand (handledTables st)
                       (calls st ++ [LinkSkipped (Table._id A)
                                       (FieldSchema.tableId sub)])) true Hmark)
          as (tr & handled & Heq).
        exists ([LinkSkipped (Table._id A) (FieldSchema.tableId sub)] ++ tr),
               handled.
        simpl in Heq |- *. now rewrite Heq, <- app_assoc.
      * set (st1 := mkExpand
                      ({[edgeKey (Table._id A) (Table._id A)]} ∪ handledTables st)
                      (calls st ++ [LinkFollowed (Table._id A) (Table._id A)]
                                ++ [GetTable (Table._id A)])).
        destruct (related_loop tables A A Hself (recursor tables fuel)
                    (Object_keys (Table.schema A)) ltac:(auto) [] st1)
          as (trA & HeqA & _).
        { apply elem_of_union. left. now apply elem_of_singleton. }
        simpl in HeqA. fold (plain_keys A) in HeqA.
        erewrite for_of_first_done; cycle 1.
        { erewrite extractField_follow; eauto;
            [|now rewrite Htarget | rewrite Htarget; exact HA].
          rewrite Htarget. fold st1. unfold bind.
          rewrite extractTableFields_eq, filter_self, HeqA. reflexivity. }
        destruct (IH Hrest
                    (result
                     ++ map (qualify (FieldSchema.name sub)) (plain_keys A)
                     ++ map (qualify (Table.name A)) (plain_keys A))
                    (mkExpand (handledTables st1) (calls st1 ++ trA)) true)
          as (tr & handled & Heq).
        { simpl. apply bool_decide_eq_true_2, elem_of_union. left.
          now apply elem_of_singleton. }
        exists ([LinkFollowed (Table._id A) (Table._id A)]
                ++ [GetTable (Table._id A)] ++ trA ++ tr), handled.
        subst st1. simpl in Heq. rewrite Heq. rewrite <- !app_assoc. reflexivity.
    + erewrite for_of_first_done;
        [|unfold extractField; rewrite Hsub', Hty; reflexivity].
      destruct (IH Hrest (result ++ [f]) st followed Hmark)
        as (tr & handled & Heq).
      exists tr, handled. rewrite Heq. simpl. now rewrite <- app_assoc.
Qed.
End SelfReference.

(** X6: on a table whose relationships all lead to the table itself,
    [getQueriableFields] returns with any fuel of at least one, and only
    the first requested relationship is expanded (under its own name and
    under the table's name, over the plain columns of the table); every
    later relationship column is skipped and contributes nothing. *)
Theorem self_reference_first_link_only tables A fuel fields log :
  tables (Table._id A) = Some A ->
  links_to A (Table._id A) = true ->
  exists tr,
    getQueriableFields tables (S fuel) fields A log
    = (Done ("_id" :: self_fields A false
                        (filter (fun f => f ∈ fields)
                           (Object_keys (Table.schema A)))),
       log ++ tr).
Proof.
  intros HA Hself.
  destruct (self_loop tables A HA Hself fuel
              (filter (fun f => f ∈ fields) (Object_keys (Table.schema A)))
              ltac:(intros f Hf; now apply list_elem_of_filter in Hf as [_ Hf])
              [] (mkExpand {[Table._id A]} log) false)
    as (tr & handled & Heq).
  { simpl. apply bool_decide_eq_false_2. intros Hin.
    apply elem_of_singleton in Hin. exact (edgeKey_not_id _ _ Hin). }
  exists tr. unfold getQueriableFields. simpl extractTableFields.
  simpl in Heq. now rewrite Heq.
Qed.

Lemma self_reference_first_link_only_witness :
  exists tr,
    getQueriableFields ex_tables2 1 ["name"; "manager"; "mentor"] ex_employees []
    = (Done ["_id"; "name"; "manager.name"; "employees.name"], tr).
Proof.
  destruct (self_reference_first_link_only ex_tables2 ex_employees 0
              ["name"; "manager"; "mentor"] [] eq_refl eq_refl) as (tr & Heq).
  exists tr. exact Heq.
Defined.

(** ** Further properties of the search entry point *)

Lemma expansion_trace_no_executor tr b :
  expansion_trace tr -> ExecutorSearch b ∉ tr.
Proof.
  induction 1; intros Hin.
  - inversion Hin.
  - inversion Hin; subst; auto.
  - inversion Hin as [|? ? ? Hin']; subst. inversion Hin'; subst; auto.
Qed.

Section SearchProperties.
Context {Query Row : Type}.
Variable tables : string -> option Table.t.
Variable dataFilters : QueryOps Query.
Variable isExternalTableID : string -> bool.
Variable isSqsEnabledForTenant : bool.
Variable toLowerCase : string -> string.
Variable searchInputMapping : Table.t -> Params.t Query -> Params.t Query.
Variables external_search internal_sqs_search internal_lucene_search :
  Params.t Query -> Table.t -> outcome (Response.t Row).

Abbreviation the_search :=
  (search tables dataFilters isExternalTableID isSqsEnabledForTenant
     toLowerCase searchInputMapping external_search internal_sqs_search
     internal_lucene_search).

Lemma tableId_cleaned options :
  Params.tableId (lowerSortOrder toLowerCase (cleanQuery dataFilters options))
  = Params.tableId options.
Proof.
  unfold lowerSortOrder.
  destruct (Params.sortOrder _) as [so|]; [destruct (String.eqb so "")|];
    reflexivity.
Qed.

(** X7: when the early return is not taken and the table id does not
    resolve, [search] fails with the table store's not-found error right
    after the fetch of the table: nothing is expanded and no executor is
    invoked. *)
Theorem search_table_not_found fuel options log :
  isEmptyQuery dataFilters (cleanQuery dataFilters options) = false ->
  tables (Params.tableId options) = None ->
  the_search fuel options log
  = (Throw (NotFound (Params.tableId options)),
     log ++ [GetTable (Params.tableId options)]).
Proof.
  intros Hfilters Htable. unfold search. rewrite Hfilters.
  unfold bind at 1. unfold getTable_top.
  rewrite tableId_cleaned, Htable. reflexivity.
Qed.

(** X8: when the field expansion does not return, because a related
    table does not resolve or because the expansion never ends, [search]
    ends the same way with the calls of the expansion as its last calls:
    no executor is invoked. *)
Theorem search_expansion_failure fuel options log table r log' :
  let cleaned := lowerSortOrder toLowerCase (cleanQuery dataFilters options) in
  let resolved := resolveFields toLowerCase searchInputMapping table cleaned in
  isEmptyQuery dataFilters (cleanQuery dataFilters options) = false ->
  tables (Params.tableId options) = Some table ->
  getQueriableFields tables fuel (default [] (Params.fields resolved)) table
    (log ++ [GetTable (Params.tableId options)])
  = (r, log') ->
  (forall queriable, r <> Done queriable) ->
  the_search fuel options log
  = (match r with
     | Throw e => Throw e
     | _ => OutOfFuel
     end,
     log').
Proof.
  intros cleaned resolved Hfilters Htable Hfields Hfail.
  unfold search. rewrite Hfilters. fold cleaned. unfold bind at 1.
  unfold getTable_top. unfold cleaned at 1 2.
  rewrite tableId_cleaned, Htable. fold cleaned resolved.
  unfold bind at 1. rewrite Hfields.
  destruct r as [q| |]; [now destruct (Hfail q) | reflexivity | reflexivity].
Qed.

(** X9: in every run of [search], the calls it adds to the log contain at
    most one executor call; if there is one, it is the last call of the
    run and it is to the executor that the locality of the table id and
    the tenant flag select. *)
Theorem search_one_executor_call_at_most fuel options log :
  exists tr,
    snd (the_search fuel options log) = log ++ tr
    /\ forall b,
         ExecutorSearch b ∈ tr ->
         b = spec_selectExecutor (isExternalTableID (Params.tableId options))
               isSqsEnabledForTenant
         /\ exists before,
              tr = before ++ [ExecutorSearch b]
              /\ forall b', ExecutorSearch b' ∉ before.
Proof.
  unfold search.
  destruct (isEmptyQuery _ _).
  { exists []. simpl. rewrite app_nil_r. split; [reflexivity|].
    intros b Hin. inversion Hin. }
  unfold bind at 1. unfold getTable_top. rewrite tableId_cleaned.
  destruct (tables (Params.tableId options)) as [table|].
  2:{ eexists [_]. split; [reflexivity|]. intros b Hin.
      apply list_elem_of_singleton in Hin. discriminate. }
  set (resolved := resolveFields toLowerCase searchInputMapping table _).
  unfold bind at 1. unfold getQueriableFields.
  destruct (extractTableFields_appends tables fuel table
              (default [] (Params.fields resolved))
              (mkExpand {[Table._id table]}
                 (log ++ [GetTable (Params.tableId options)])))
    as (tr & Hc & Htr).
  assert (Hquiet : forall b,
             ExecutorSearch b ∉ [GetTable (Params.tableId options)] ++ tr).
  { intros b Hin. apply elem_of_app in Hin as [Hin|Hin].
    - apply list_elem_of_singleton in Hin. discriminate.
    - exact (expansion_trace_no_executor _ _ Htr Hin). }
  destruct (extractTableFields _ _ _ _ _) as [[r| |] st]; simpl in Hc.
  - unfold dispatch, spec_selectExecutor.
    exists (([GetTable (Params.tableId options)] ++ tr)
            ++ [ExecutorSearch
                  (if isExternalTableID (Params.tableId options) then External
                   else if isSqsEnabledForTenant then InternalSqs
                   else InternalLucene)]).
    split.
    + destruct (isExternalTableID _); [|destruct isSqsEnabledForTenant];
        unfold bind, log_call, lift_outcome; simpl;
        rewrite Hc, <- !app_assoc; reflexivity.
    + intros b Hin. apply elem_of_app in Hin as [Hin|Hin];
        [now destruct (Hquiet b)|].
      apply list_elem_of_singleton in Hin. injection Hin as ->.
      split; [reflexivity|]. eauto.
  - exists ([GetTable (Params.tableId options)] ++ tr). simpl.
    rewrite Hc, <- app_assoc. split; [reflexivity|].
    intros b Hin. now destruct (Hquiet b).
  - exists ([GetTable (Params.tableId options)] ++ tr). simpl.
    rewrite Hc, <- app_assoc. split; [reflexivity|].
    intros b Hin. now destruct (Hquiet b).
Qed.

(** X10: a request whose query is falsy ([undefined] or [null]) is
    handled exactly as the same request with the empty query [{}]. *)
Theorem search_without_query fuel options log :
  isTruthy dataFilters (Params.query options) = false ->
  the_search fuel options log
  = the_search fuel (Params.set_query (emptyQuery dataFilters) options) log.
Proof.
  intros Hfalsy.
  assert (Hclean : cleanQuery dataFilters options
                   = cleanQuery dataFilters
                       (Params.set_query (emptyQuery dataFilters) options)).
  { unfold cleanQuery. simpl. rewrite Hfalsy.
    now destruct (isTruthy dataFilters (emptyQuery dataFilters)). }
  unfold search. rewrite <- Hclean. reflexivity.
Qed.

Lemma visibleTableFields_schema table v :
  v ∈ visibleTableFields table ->
  exists sub,
    schema_get (Table.schema table) v = Some sub
    /\ FieldSchema.visible sub <> Some false.
Proof.
  unfold visibleTableFields. intros Hin.
  apply list_elem_of_In, filter_In in Hin as [_ Hv].
  destruct (schema_get (Table.schema table) v) as [sub|]; [|discriminate].
  exists sub. split; [reflexivity|]. intros E. rewrite E in Hv. discriminate.
Qed.

(** X11: the field list that [search] hands to the expansion is always
    set; each of its names has the same [toLowerCase] as a column of the
    table whose [visible] flag is not [false]; when the request (after the
    input mapping) names fields, the list holds only names of the request,
    and when it names none, the list is the visible columns of the
    table. *)
Theorem resolveFields_fields table options :
  exists fs,
    Params.fields (resolveFields toLowerCase searchInputMapping table options) = Some fs
    /\ (forall f, f ∈ fs ->
          exists v sub,
            schema_get (Table.schema table) v = Some sub
            /\ FieldSchema.visible sub <> Some false
            /\ toLowerCase f = toLowerCase v)
    /\ (forall requested,
          Params.fields (searchInputMapping table options) = Some requested ->
          forall f, f ∈ fs -> f ∈ requested)
    /\ (Params.fields (searchInputMapping table options) = None ->
        fs = visibleTableFields table).
Proof.
  unfold resolveFields.
  destruct (Params.fields (searchInputMapping table options)) as [req|];
    simpl; eexists; (split; [reflexivity|]); split; [| split | | split].
  - intros f Hf. apply list_elem_of_filter in Hf as [Hf _].
    apply list_elem_of_fmap in Hf as (v & Hv & Hin).
    apply visibleTableFields_schema in Hin as (sub & Hget & Hvis). eauto.
  - intros requested [= <-] f Hf. now apply list_elem_of_filter in Hf as [_ ?].
  - discriminate.
  - intros f Hf.
    apply visibleTableFields_schema in Hf as (sub & Hget & Hvis). eauto.
  - discriminate.
  - reflexivity.
Qed.
End SearchProperties.

Lemma search_table_not_found_witness :
  search ex_tables2 ex_dataFilters ex_isExternalTableID true ex_toLowerCase (fun _ o => o)
    (ex_executor 1) (ex_executor 2) (ex_executor 3) 1
    (ex_request (Some (mk_ex_filters [("status", "open")] None))) []
  = (Throw (NotFound "ta_orders"), [GetTable "ta_orders"]).
Proof.
  apply (search_table_not_found ex_tables2 ex_dataFilters ex_isExternalTableID
           true ex_toLowerCase (fun _ o => o) (ex_executor 1) (ex_executor 2) (ex_executor 3) 1
           (ex_request (Some (mk_ex_filters [("status", "open")] None))) []);
    reflexivity.
Defined.

Lemma search_expansion_failure_witness :
  exists log',
    ex_search false 3
      (Params.mk "ta_users" (Some (mk_ex_filters [("teams", "x")] None))
         None None None None None None None None) []
    = (OutOfFuel, log').
Proof.
  eexists.
  apply (search_expansion_failure ex_tables ex_dataFilters ex_isExternalTableID
           false ex_toLowerCase (fun _ o => o) (ex_executor 1) (ex_executor 2) (ex_executor 3) 3
           (Params.mk "ta_users" (Some (mk_ex_filters [("teams", "x")] None))
              None None None None None None None None) [] ex_users OutOfFuel).
  - reflexivity.
  - reflexivity.
  - vm_compute. reflexivity.
  - discriminate.
Defined.

Lemma search_without_query_witness :
  ex_search false 1 (ex_request None) []
  = ex_search false 1 (ex_request (Some (mk_ex_filters [] None))) [].
Proof.
  apply (search_without_query ex_tables ex_dataFilters ex_isExternalTableID
           false ex_toLowerCase (fun _ o => o) (ex_executor 1) (ex_executor 2) (ex_executor 3) 1
           (ex_request None) []).
  reflexivity.
Defined.

(** ** The module state of the database factory *)

Lemma indexOf_from_absent l x i : x ∉ l -> indexOf_from l x i = (-1)%Z.
Proof.
  revert i. induction l as [|y l IH]; intros i Hx; simpl; [reflexivity|].
  destruct (String.eqb y x) eqn:E.
  - apply String.eqb_eq in E. subst. destruct Hx. left.
  - apply IH. intros Hin. apply Hx. now right.
Qed.

Lemma indexOf_from_first l1 l2 x i :
  x ∉ l1 ->
  indexOf_from (l1 ++ x :: l2) x i = (i + Z.of_nat (length l1))%Z.
Proof.
  revert i. induction l1 as [|y l1 IH]; intros i Hx; simpl.
  - rewrite String.eqb_refl. lia.
  - destruct (String.eqb y x) eqn:E.
    + apply String.eqb_eq in E. subst. destruct Hx. left.
    + rewrite IH by (intros Hin; apply Hx; now right). lia.
Qed.

Lemma splice1_at l1 x l2 :
  splice1 (l1 ++ x :: l2) (Z.of_nat (length l1)) = l1 ++ l2.
Proof.
  unfold splice1. rewrite length_app. simpl.
  destruct (Z.ltb_spec (Z.of_nat (length l1)) 0); [lia|].
  rewrite Z.min_l by lia. rewrite Nat2Z.id.
  rewrite take_app_length.
  change (S (length l1)) with (1 + length l1).
  rewrite Nat.add_comm, <- drop_drop, drop_app_length. reflexivity.
Qed.

Lemma splice1_minus_one l : splice1 l (-1) = removelast l.
Proof.
  unfold splice1. simpl.
  destruct l as [|x l _] using rev_ind; [reflexivity|].
  rewrite removelast_last, length_app. simpl.
  replace (Z.max (Z.of_nat (length l + 1) + -1) 0) with (Z.of_nat (length l))
    by lia.
  rewrite Nat2Z.id, take_app_length.
  rewrite drop_ge by (rewrite length_app; simpl; lia).
  now rewrite app_nil_r.
Qed.

Section DbProperties.
Context {Store Options Response PouchOpts PouchOptions : Type}.
Variable isoTimeAt : nat -> string.
Variable MEMORY_LEAK_CHECK : bool.

Abbreviation ModuleOf := (Db.Module_ Store Options Response PouchOpts).
Abbreviation DatabaseOf := (Db.Database Store Options Response).

(** X12: before [init], [getPouchDB] fails with the error of
    [checkInitialised] and leaves the module as it was: even in the test
    environment the name is not recorded. *)
Theorem getPouchDB_before_init isTest dbName (opts : PouchOpts) (st : ModuleOf) :
  Db.initialised st = false ->
  getPouchDB isoTimeAt isTest MEMORY_LEAK_CHECK dbName opts st
  = (Throw NotInitialised, st).
Proof.
  intros Hinit. unfold getPouchDB, bind, checkInitialised.
  now rewrite Hinit.
Qed.

(** X13: after [init], [getPouchDB] always returns a handle: the one the
    constructor of [init] builds, with its [put] wrapped; the name asked
    for is added to [dbList] exactly in the test environment and the
    handle's name is appended to [openDbs] exactly under
    [MEMORY_LEAK_CHECK]. *)
Theorem init_then_getPouchDB isTest
    (pouch_getPouch : option PouchOptions -> string -> PouchOpts -> DatabaseOf)
    initOpts dbName (opts : PouchOpts) (st : ModuleOf) :
  let db := pouch_getPouch initOpts dbName opts in
  getPouchDB isoTimeAt isTest MEMORY_LEAK_CHECK dbName opts
    (snd (init pouch_getPouch initOpts st))
  = (Done (Db.mkDatabase (Db.name db) (put isoTimeAt (Db.db_put db))),
     Db.mkModule (Some (pouch_getPouch initOpts)) true
       (if MEMORY_LEAK_CHECK then Db.openDbs st ++ [Db.name db]
        else Db.openDbs st)
       (if isTest then {[dbName]} ∪ Db.dbList st else Db.dbList st)).
Proof.
  unfold getPouchDB, init, bind, checkInitialised, ret. simpl.
  destruct isTest, MEMORY_LEAK_CHECK; reflexivity.
Qed.

Variable db_close : DatabaseOf -> outcome unit.

(** X14: [closeDB] never raises: whatever [db.close()] does, an error of
    it is swallowed and [closeDB] returns normally. *)
Theorem closeDB_never_throws isTest (db : option DatabaseOf) (st : ModuleOf) e :
  fst (closeDB isTest MEMORY_LEAK_CHECK db_close db st) <> Throw e.
Proof.
  unfold closeDB. destruct db as [d|]; [|discriminate].
  destruct isTest; [discriminate|].
  unfold bind. destruct MEMORY_LEAK_CHECK; simpl;
    destruct (db_close d); discriminate.
Qed.

End DbProperties.

Section OpenDbs.
Context {Store Options Response PouchOpts : Type}.
Variable db_close : Db.Database Store Options Response -> outcome unit.

(** X15: outside the test environment and under [MEMORY_LEAK_CHECK],
    [closeDB] removes from [openDbs] the first entry equal to the name of
    the handle, and only that one. *)
Theorem closeDB_forgets_first_entry
    (d : Db.Database Store Options Response)
    (st : Db.Module_ Store Options Response PouchOpts) before after :
  Db.openDbs st = before ++ Db.name d :: after ->
  Db.name d ∉ before ->
  Db.openDbs (snd (closeDB false true db_close (Some d) st)) = before ++ after.
Proof.
  intros Hopen Hfresh. unfold closeDB, bind. simpl.
  rewrite Hopen. unfold indexOf. rewrite indexOf_from_first by assumption.
  rewrite Z.add_0_l, splice1_at. now destruct (db_close d).
Qed.

(** X16: outside the test environment and under [MEMORY_LEAK_CHECK],
    closing a handle whose name is not in [openDbs] removes the last entry
    of [openDbs], the name of another database: [indexOf] answers -1 and
    [splice(-1, 1)] counts from the end. *)
Theorem closeDB_unknown_handle_drops_last
    (d : Db.Database Store Options Response)
    (st : Db.Module_ Store Options Response PouchOpts) :
  Db.name d ∉ Db.openDbs st ->
  Db.openDbs (snd (closeDB false true db_close (Some d) st))
  = removelast (Db.openDbs st).
Proof.
  intros Habsent. unfold closeDB, bind. simpl.
  unfold indexOf. rewrite indexOf_from_absent by assumption.
  rewrite splice1_minus_one. now destruct (db_close d).
Qed.

(** X17: outside the test environment and under [MEMORY_LEAK_CHECK],
    opening a database whose handle name is not yet in [openDbs] and
    closing the handle leaves the module exactly as it was before. *)
Theorem open_close_round_trip isoTimeAt dbName (opts : PouchOpts)
    (st st' : Db.Module_ Store Options Response PouchOpts) db :
  getPouchDB isoTimeAt false true dbName opts st = (Done db, st') ->
  Db.name db ∉ Db.openDbs st ->
  snd (closeDB false true db_close (Some db) st') = st.
Proof.
  unfold getPouchDB, bind, checkInitialised, ret. simpl.
  destruct (Db.initialised st) eqn:Hinit; [|discriminate].
  destruct (Db.Pouch st) as [ctor|] eqn:Hctor; [|discriminate].
  intros [= <- <-] Hfresh. simpl in Hfresh.
  unfold closeDB, bind. simpl.
  unfold indexOf. rewrite indexOf_from_first by assumption.
  rewrite Z.add_0_l, splice1_at, app_nil_r.
  destruct st; simpl in *; subst. now destruct (db_close _).
Qed.
End OpenDbs.

(** X18: a document written through the wrapper and written again as it
    was handed to the store keeps the [createdAt] of the first write; the
    second write reads the clock once, for the new [updatedAt]. *)
Theorem put_twice_keeps_createdAt
    {Store Options : Type} isoTimeAt
    (doc doc1 doc2 : gmap string jsval) (options : Options)
    (env env1 env2 : Db.Env Store) :
  (forall n, isoTimeAt n <> "") ->
  put isoTimeAt (fun d _ e => (Done d, e)) doc options env = (Done doc1, env1) ->
  put isoTimeAt (fun d _ e => (Done d, e)) doc1 options env1 = (Done doc2, env2) ->
  doc2 !! "createdAt" = doc1 !! "createdAt"
  /\ doc2 !! "updatedAt" = Some (JStr (isoTimeAt (Db.clockReads env1)))
  /\ Db.clockReads env2 = S (Db.clockReads env1).
Proof.
  intros Hiso H1 H2.
  assert (Hcreated : truthy (prop doc1 "createdAt") = true).
  { destruct (put_stamps (Response := gmap string jsval) isoTimeAt doc options env)
      as (d & e & Hput & _ & Hset & Hkeep & _).
    rewrite Hput in H1. injection H1 as -> ->.
    destruct (truthy (prop doc "createdAt")) eqn:Hc.
    - unfold prop in *. now rewrite (Hkeep eq_refl).
    - unfold prop. rewrite (Hset eq_refl). simpl.
      apply negb_true_iff, String.eqb_neq, Hiso. }
  unfold put, bind in H2. rewrite Hcreated in H2. simpl in H2.
  injection H2 as <- <-. simpl.
  rewrite lookup_insert_eq, lookup_insert_ne by discriminate. auto.
Qed.

Lemma getPouchDB_before_init_witness :
  getPouchDB ex_isoTimeAt true true "app" tt
    (Db.mkModule (Store := unit) (Options := unit)
       (Response := gmap string jsval) None false ["other"] ∅)
  = (Throw NotInitialised, Db.mkModule None false ["other"] ∅).
Proof.
  apply (getPouchDB_before_init ex_isoTimeAt true true "app" tt
           (Db.mkModule None false ["other"] ∅)).
  reflexivity.
Defined.

Lemma closeDB_forgets_first_entry_witness :
  Db.openDbs
    (snd (closeDB false true (fun _ => Throw (BackendFailure "closed"))
            (Some (ex_Pouch "app" tt))
            (Db.mkModule (PouchOpts := unit) (Some ex_Pouch) true
               ["other"; "app"; "app"] ∅)))
  = ["other"] ++ ["app"].
Proof.
  apply (closeDB_forgets_first_entry (fun _ => Throw (BackendFailure "closed"))
           (ex_Pouch "app" tt)
           (Db.mkModule (Some ex_Pouch) true ["other"; "app"; "app"] ∅)
           ["other"] ["app"]).
  - reflexivity.
  - compute_done.
Defined.

Lemma closeDB_unknown_handle_drops_last_witness :
  Db.openDbs
    (snd (closeDB false true (fun _ => Done tt)
            (Some (ex_Pouch "app" tt))
            (Db.mkModule (PouchOpts := unit) (Some ex_Pouch) true
               ["first"; "other"] ∅)))
  = removelast ["first"; "other"].
Proof.
  apply (closeDB_unknown_handle_drops_last (fun _ => Done tt)
           (ex_Pouch "app" tt)
           (Db.mkModule (Some ex_Pouch) true ["first"; "other"] ∅)).
  compute_done.
Defined.

Lemma open_close_round_trip_witness :
  snd (closeDB false true (fun _ => Done tt)
         (Some (Db.mkDatabase "app"
                  (put ex_isoTimeAt (Db.db_put (ex_Pouch "app" tt)))))
         (Db.mkModule (PouchOpts := unit) (Some ex_Pouch) true
            ["other"; "app"] ∅))
  = Db.mkModule (Some ex_Pouch) true ["other"] ∅.
Proof.
  apply (open_close_round_trip (fun _ => Done tt) ex_isoTimeAt "app" tt
           (Db.mkModule (Some ex_Pouch) true ["other"] ∅)).
  - reflexivity.
  - compute_done.
Defined.

Lemma put_twice_keeps_createdAt_witness :
  let doc1 : gmap string jsval :=
    <["updatedAt" := JStr "2024-05-01T10:00:00.001Z"]>
      (<["createdAt" := JStr "2024-05-01T10:00:00.000Z"]>
         {["name" := JStr "n"]}) in
  let doc2 : gmap string jsval :=
    <["updatedAt" := JStr "2024-05-01T10:00:00.001Z"]> doc1 in
  doc2 !! "createdAt" = doc1 !! "createdAt"
  /\ doc2 !! "updatedAt" = Some (JStr (ex_isoTimeAt 2))
  /\ 3 = S 2.
Proof.
  intros doc1 doc2.
  apply (put_twice_keeps_createdAt (Store := unit) ex_isoTimeAt
           {["name" := JStr "n"]} doc1 doc2 tt
           (Db.mkEnv 0 tt) (Db.mkEnv 2 tt) (Db.mkEnv 3 tt)).
  - intros [|n]; discriminate.
  - vm_compute. reflexivity.
  - vm_compute. reflexivity.
Defined.
